(** * ResumeRetrieval: the SQLite + FAISS store of [backend/app/db.py]

    A shallow embedding of the legacy hybrid store: a FAISS
    [IndexIDMap(IndexFlatIP)] holding L2-normalised chunk vectors, two SQLite
    tables ([resumes], [chunks]) and the module-level cursor [_next_id].

    Layout: scalars, Python results, the NumPy and FAISS fragments the module
    calls, the module's own globals and functions; then the facts proved about
    them. *)

From Stdlib Require Import ZArith Reals Lra Lia Floats.SpecFloat.
From stdpp Require Import gmap strings list fin_maps sorting.

(** ** Scalars

    The module computes in [float32].  Everything that does not depend on
    rounding is stated over an arbitrary scalar type carrying the operations
    the code uses; two instances follow: IEEE binary32 (which evaluates) and
    the real numbers (exact arithmetic, where rounding and overflow are
    ignored). *)

Class Scalar (F : Type) := {
  s_zero : F;                 (* 0.0, the identity of add.reduce *)
  s_add : F → F → F;
  s_mul : F → F → F;
  s_div : F → F → F;
  s_sqrt : F → F;
  s_eps : F;                  (* the literal 1e-10 *)
  s_lowest : F;               (* score slot of an unfilled search result *)
  s_leb : F → F → bool        (* <= on scores *)
}.

(** Laws of the score order that ranking relies on; they hold for the reals
    and for floats that are not NaN. *)
Class ScalarOrder (F : Type) `{!Scalar F} : Prop := {
  s_leb_total : ∀ x y : F, s_leb x y = true ∨ s_leb y x = true;
  s_leb_trans : ∀ x y z : F, s_leb x y = true → s_leb y z = true → s_leb x z = true
}.

Module Binary32.
Definition prec : Z := 24.
Definition emax : Z := 128.
Definition t : Type := spec_float.
Definition of_Z (z : Z) : t := binary_normalize prec emax z 0 false.
Definition zero : t := S754_zero false.
Definition one : t := of_Z 1.
Definition add : t → t → t := SFadd prec emax.
Definition mul : t → t → t := SFmul prec emax.
Definition div : t → t → t := SFdiv prec emax.
Definition sqrt : t → t := SFsqrt prec emax.
(** 1e-10 rounded to binary32; [10^10 = 2^10 * 5^10] is itself a binary32
    number, so one correctly rounded division gives it. *)
Definition eps : t := div one (of_Z 10000000000).
(** [-FLT_MAX = -(2^24 - 1) * 2^104]. *)
Definition lowest : t := S754_finite true 16777215 104.
Definition leb : t → t → bool := SFleb.
End Binary32.

#[export] Instance binary32_scalar : Scalar Binary32.t := {|
  s_zero := Binary32.zero;
  s_add := Binary32.add;
  s_mul := Binary32.mul;
  s_div := Binary32.div;
  s_sqrt := Binary32.sqrt;
  s_eps := Binary32.eps;
  s_lowest := Binary32.lowest;
  s_leb := Binary32.leb
|}.

#[export] Instance real_scalar : Scalar R := {|
  s_zero := 0%R;
  s_add := Rplus;
  s_mul := Rmult;
  s_div := Rdiv;
  s_sqrt := sqrt;
  s_eps := (/ 10000000000)%R;
  s_lowest := (- (2 ^ 128 - 2 ^ 104))%R;
  s_leb := λ x y, if Rle_dec x y then true else false
|}.

(** ** Python results: a value or a raised exception *)

Inductive exn : Set :=
| ValueError         (* also numpy's inhomogeneous-shape error *)
| AxisError          (* numpy.exceptions.AxisError *)
| AssertionError     (* the checks of the faiss Python wrapper *)
| IndexError
| IntegrityError     (* sqlite3: PRIMARY KEY violated *)
| RuntimeError.      (* faiss C++ exception *)

Inductive result (A : Type) : Type :=
| Ok (a : A)
| Raise (e : exn).
Arguments Ok {A} a.
Arguments Raise {A} e.

#[export] Instance result_ret : MRet result := λ A a, Ok a.
#[export] Instance result_bind : MBind result := λ A B f r,
  match r with Ok a => f a | Raise e => Raise e end.
#[export] Instance result_fmap : FMap result := λ A B f r,
  match r with Ok a => Ok (f a) | Raise e => Raise e end.

(** ** NumPy fragment *)

Module Np.
Section WithScalar.
Context {F : Type} `{!Scalar F}.

(** A float32 array of one or two dimensions, given by its float32 entries.
    [Arr2 c rows] has shape [(length rows, c)]. *)
Inductive ndarray : Type :=
| Arr1 (v : list F)
| Arr2 (ncols : nat) (rows : list (list F)).

(** What [np.asarray] is applied to: a Python list of rows, or an array. *)
Inductive array_like : Type :=
| PyList (rows : list (list F))
| NdArray (a : ndarray).

(** [np.asarray(vectors, dtype="float32")]: the empty list gives the 1-D
    array of shape [(0,)]; rows of unequal length are refused. *)
Definition asarray (vectors : array_like) : result ndarray :=
  match vectors with
  | NdArray a => Ok a
  | PyList [] => Ok (Arr1 [])
  | PyList (r :: rs) =>
      if forallb (λ r', length r' =? length r) rs
      then Ok (Arr2 (length r) (r :: rs))
      else Raise ValueError
  end.

(** [sqrt(add.reduce(x * x))] along a row. *)
Definition sum_sq (row : list F) : F :=
  foldl (λ acc x, s_add acc (s_mul x x)) s_zero row.

Definition row_norm (row : list F) : F := s_sqrt (sum_sq row).

(** [np.linalg.norm(arr, axis=1, keepdims=True)]: axis 1 does not exist in
    a 1-D array. *)
Definition linalg_norm_axis1 (arr : ndarray) : result (list F) :=
  match arr with
  | Arr1 _ => Raise AxisError
  | Arr2 _ rows => Ok (row_norm <$> rows)
  end.

(** [arr / norms] with [norms] of shape [(n, 1)]. *)
Definition divide (arr : ndarray) (norms : list F) : ndarray :=
  match arr with
  | Arr1 v => Arr1 v
  | Arr2 c rows => Arr2 c (zip_with (λ row n, (λ x, s_div x n) <$> row) rows norms)
  end.

(** [np.arange(start, stop, dtype="int64")] (identifiers stay far below
    [2^63]; the machine range is not modelled). *)
Definition arange (start stop : Z) : list Z := seqZ start (stop - start).
End WithScalar.
Arguments ndarray : clear implicits.
Arguments array_like : clear implicits.
End Np.

(** ** FAISS fragment: [IndexIDMap] over [IndexFlatIP]

    The library is external to the repository; the model follows the shape
    assertions of its Python wrapper and the contract of the flat
    inner-product index.  Ties between equal scores are broken as the sort
    breaks them; nothing below depends on it. *)

Module Faiss.
Section WithScalar.
Context {F : Type} `{!Scalar F}.

Record index : Type := Index {
  d : nat;                          (* vector dimension *)
  entries : list (Z * list F)      (* (id, vector), in insertion order *)
}.

Definition IndexIDMap_FlatIP (dim : nat) : index := Index dim [].

Definition ntotal (idx : index) : nat := length (entries idx).

(** [index.add_with_ids(x, ids)]: [n, d = x.shape; assert d == self.d;
    assert ids.shape == (n,)]. *)
Definition add_with_ids (idx : index) (x : Np.ndarray F) (ids : list Z) : result index :=
  match x with
  | Np.Arr1 _ => Raise ValueError
  | Np.Arr2 dx rows =>
      if negb (dx =? d idx) then Raise AssertionError
      else if negb (length ids =? length rows) then Raise AssertionError
      else Ok (Index (d idx) (entries idx ++ zip ids rows))
  end.

(** [index.remove_ids(ids)]: absent identifiers are ignored. *)
Definition remove_ids (idx : index) (ids : list Z) : index :=
  Index (d idx) (filter (λ e, e.1 ∉ ids) (entries idx)).

Definition inner_product (q v : list F) : F :=
  foldl (λ acc p, s_add acc (s_mul p.1 p.2)) s_zero (zip q v).

(** Ranking: larger score first. *)
Definition score_desc : relation (F * Z) := λ a b, s_leb b.1 a.1 = true.

#[export] Instance score_desc_dec : RelDecision score_desc.
Proof. intros a b. unfold score_desc. apply _. Defined.

(** Modelled from the spec: the search contract of the index (FAISS itself is
    not part of the repository).  Per query vector, the [k] best entries by
    inner product, in descending order of score; where the index holds
    fewer than [k] vectors the remaining slots carry the label [-1]. *)
Definition knn (idx : index) (k : nat) (q : list F) : list (F * Z) :=
  let scored := (λ e, (inner_product q e.2, e.1)) <$> entries idx in
  let best := take k (merge_sort score_desc scored) in
  best ++ replicate (k - length best) (s_lowest, (-1)%Z).

(** [index.search(x, k)]: [n, d = x.shape; assert d == self.d;
    assert k > 0]; returns the matrices [(D, I)], one row per query. *)
Definition search (idx : index) (x : Np.ndarray F) (k : Z)
  : result (list (list F) * list (list Z)) :=
  match x with
  | Np.Arr1 _ => Raise ValueError
  | Np.Arr2 dx rows =>
      if negb (dx =? d idx) then Raise AssertionError
      else if negb (0 <? k)%Z then Raise AssertionError
      else
        let hits := knn idx (Z.to_nat k) <$> rows in
        Ok (fmap fst <$> hits, fmap snd <$> hits)
  end.
End WithScalar.
Arguments index : clear implicits.
End Faiss.


(** ** The module [db.py] *)

(** [config.VECTOR_DIM] *)
Definition VECTOR_DIM : nat := 1536.

(** The [meta] dictionary handed to [insert_resume]; the five keys the
    function reads. *)
Record Meta : Type := mkMeta {
  resume_id : string;
  name : string;
  email : string;
  skills : list string;
  years_experience : Z
}.

(** A row of table [resumes], keyed by [resume_id].  Column [skills] holds
    [json.dumps] of the list and is read back through [json.loads]; the model
    keeps the list itself. *)
Record resume_row : Type := mkResume {
  row_name : string;
  row_email : string;
  row_skills : list string;
  row_years_experience : Z;
  row_version : Z
}.

(** A row of table [chunks], keyed by [vector_id]. *)
Record chunk_row : Type := mkChunk {
  chunk_resume_id : string;
  chunk_text : string
}.

(** Values of the dictionary returned by [fetch_meta]. *)
Inductive pyval : Type :=
| PyStr (s : string)
| PyInt (z : Z)
| PyStrList (l : list string).

(** [ORDER BY vector_id] *)
Definition by_vector_id : relation (Z * chunk_row) := λ a b, (a.1 ≤ b.1)%Z.

#[export] Instance by_vector_id_dec : RelDecision by_vector_id.
Proof. intros a b. unfold by_vector_id. apply _. Defined.

Section Db.
Context {F : Type} `{!Scalar F}.

(** [_l2_normalize]: rows divided by their L2 norm plus [1e-10]. *)
Definition _l2_normalize (vectors : Np.array_like F) : result (Np.ndarray F) :=
  arr ← Np.asarray vectors;
  norms ← Np.linalg_norm_axis1 arr;
  mret (Np.divide arr ((λ n, s_add n s_eps) <$> norms)).

(** What [config.INDEX_PATH] may hold when the module is imported. *)
Inductive index_file : Type :=
| NoFile
| IdMapFile (idx : Faiss.index F)
| FlatFile (dim : nat) (vectors : list (list F)).   (* a bare IndexFlatIP *)

(** [_init_index].  Wrapping a bare index in an [IndexIDMap] is accepted by
    FAISS only while that index is empty. *)
Definition _init_index (file : index_file) : result (Faiss.index F) :=
  match file with
  | IdMapFile idx => Ok idx
  | FlatFile dim [] => Ok (Faiss.IndexIDMap_FlatIP dim)
  | FlatFile dim (_ :: _) => Raise RuntimeError
  | NoFile => Ok (Faiss.IndexIDMap_FlatIP VECTOR_DIM)
  end.

(** SQL [MAX] over a column: [NULL] on no rows. *)
Definition sql_max (col : list Z) : option Z :=
  match col with
  | [] => None
  | x :: rest => Some (foldr Z.max x rest)
  end.

(** [_next_free_vector_id]: [COALESCE(MAX(vector_id), -1) + 1]. *)
Definition _next_free_vector_id (chunks : gmap Z chunk_row) : Z :=
  (default (-1) (sql_max (map_to_list chunks).*1) + 1)%Z.

(** The module globals: [index], the two tables seen through [conn], and
    [_next_id].  The tables are the connection's view; what [commit] and
    [save_index] add (durability) is not part of the state. *)
Record db : Type := mkDb {
  index : Faiss.index F;
  resumes : gmap string resume_row;
  chunks : gmap Z chunk_row;
  _next_id : Z
}.

(** Module import: load or create the index, open the tables, compute the
    cursor. *)
Definition startup (file : index_file) (resumes0 : gmap string resume_row)
    (chunks0 : gmap Z chunk_row) : result db :=
  idx ← _init_index file;
  mret (mkDb idx resumes0 chunks0 (_next_free_vector_id chunks0)).

(** Statements of the module: they read and write the globals and may raise,
    leaving the globals as they were at the raise. *)
Definition Proc (A : Type) : Type := db → result A * db.

#[export] Instance proc_ret : MRet Proc := λ A a st, (Ok a, st).
#[export] Instance proc_bind : MBind Proc := λ A B f m st,
  match m st with
  | (Ok a, st') => f a st'
  | (Raise e, st') => (Raise e, st')
  end.

Definition raise {A} (e : exn) : Proc A := λ st, (Raise e, st).
Definition lift {A} (r : result A) : Proc A := λ st, (r, st).
Definition gets {A} (f : db → A) : Proc A := λ st, (Ok (f st), st).
Definition modify (f : db → db) : Proc unit := λ st, (Ok tt, f st).

Definition set_index (idx : Faiss.index F) (st : db) : db :=
  mkDb idx (resumes st) (chunks st) (_next_id st).
Definition set_resumes (r : gmap string resume_row) (st : db) : db :=
  mkDb (index st) r (chunks st) (_next_id st).
Definition set_chunks (c : gmap Z chunk_row) (st : db) : db :=
  mkDb (index st) (resumes st) c (_next_id st).
Definition set_next_id (n : Z) (st : db) : db :=
  mkDb (index st) (resumes st) (chunks st) n.

(** [INSERT INTO resumes ... ON CONFLICT(resume_id) DO UPDATE SET ...,
    version = resumes.version + 1]; a new row gets
    [COALESCE((SELECT version ...) + 1, 1) = 1]. *)
Definition upsert_resume (meta : Meta) (tbl : gmap string resume_row)
    : gmap string resume_row :=
  let version :=
    match tbl !! resume_id meta with
    | Some old => (row_version old + 1)%Z
    | None => 1%Z
    end in
  <[resume_id meta :=
      mkResume (name meta) (email meta) (skills meta) (years_experience meta) version]> tbl.

(** One [INSERT INTO chunks (vector_id, resume_id, text)]. *)
Definition insert_chunk (row : Z * chunk_row) : Proc unit := λ st,
  match chunks st !! row.1 with
  | Some _ => (Raise IntegrityError, st)
  | None => (Ok tt, set_chunks (<[row.1 := row.2]> (chunks st)) st)
  end.

(** [conn.executemany]: the statement once per row, stopping at the first
    failure. *)
Fixpoint executemany (stmt : Z * chunk_row → Proc unit) (rows : list (Z * chunk_row))
    : Proc unit :=
  match rows with
  | [] => mret tt
  | row :: rest => stmt row;; executemany stmt rest
  end.

(** [insert_resume], documented in the source as: Insert or replace a resume
    and its vector chunks atomically.  The final [conn.commit()] and
    [save_index()] only make the state durable. *)
Definition insert_resume (meta : Meta) (chunks_ : list string)
    (embeddings : list (list F)) : Proc unit :=
  if negb (length chunks_ =? length embeddings) then raise ValueError else
  (* upsert resume metadata *)
  modify (λ st, set_resumes (upsert_resume meta (resumes st)) st);;
  (* vectors *)
  next ← gets _next_id;
  let vec_ids := Np.arange next (next + Z.of_nat (length chunks_)) in
  x ← lift (_l2_normalize (Np.PyList embeddings));
  idx ← gets index;
  idx' ← lift (Faiss.add_with_ids idx x vec_ids);
  modify (set_index idx');;
  executemany insert_chunk
    ((λ p, (p.1, mkChunk (resume_id meta) p.2)) <$> zip vec_ids chunks_);;
  modify (set_next_id (next + Z.of_nat (length chunks_))).

(** [delete_resume]: remove a resume and its vectors. *)
Definition delete_resume (rid : string) : Proc unit :=
  rows ← gets (λ st, filter (λ kv, chunk_resume_id kv.2 = rid) (chunks st));
  let vec_ids := (map_to_list rows).*1 in
  (if bool_decide (vec_ids = [])
   then mret tt
   else modify (λ st, set_index (Faiss.remove_ids (index st) vec_ids) st));;
  modify (λ st, set_chunks (filter (λ kv, chunk_resume_id kv.2 ≠ rid) (chunks st)) st);;
  modify (λ st, set_resumes (delete rid (resumes st)) st).

(** [fetch_meta]: the columns [name, skills, years_experience] of the row, as
    a dictionary, or [None]. *)
Definition fetch_meta (rid : string) (st : db) : option (gmap string pyval) :=
  match resumes st !! rid with
  | None => None
  | Some row =>
      Some (<["name" := PyStr (row_name row)]>
           (<["skills" := PyStrList (row_skills row)]>
           (<["years_experience" := PyInt (row_years_experience row)]> ∅)))
  end.

(** The [query_vec] argument of [search_vectors]. *)
Inductive query : Type :=
| QArray (a : Np.ndarray F)          (* an np.ndarray *)
| QList (v : list F)                 (* a list of floats *)
| QBatch (rows : list (list F))      (* a list of lists *)
| QOther.                            (* any other Python value *)

(** The first branch of [search_vectors]: shape dispatch and
    normalisation. *)
Definition normalize_query (query_vec : query) : result (Np.ndarray F) :=
  match query_vec with
  | QArray ((Np.Arr2 _ _) as a) => _l2_normalize (Np.NdArray a)
  | QArray (Np.Arr1 v) => _l2_normalize (Np.PyList [v])
  | QList ((_ :: _) as v) => _l2_normalize (Np.PyList [v])
  | QBatch ((_ :: _) as rows) => _l2_normalize (Np.PyList rows)
  | QList [] | QBatch [] | QOther => Raise ValueError
  end.

(** The comprehension over row 0 of the result matrices. *)
Definition first_row_hits (res : list (list F) * list (list Z)) : result (list (F * Z)) :=
  match res with
  | (distances0 :: _, ids0 :: _) =>
      Ok (filter (λ hit, hit.2 ≠ (-1)%Z) (zip distances0 ids0))
  | _ => Raise IndexError
  end.

(** [search_vectors], documented in the source as: accept list,
    list-of-lists or np.ndarray and return [(score, vector_id), ...]. *)
Definition search_vectors (query_vec : query) (top_k : Z) (st : db)
    : result (list (F * Z)) :=
  q ← normalize_query query_vec;
  if Faiss.ntotal (index st) =? 0 then Ok [] else
  match Faiss.search (index st) q (top_k `min` Z.of_nat (Faiss.ntotal (index st))) ≫= first_row_hits with
  | Ok hits => Ok hits
  | Raise _ => Ok []       (* except Exception: print(...); return [] *)
  end.

(** [vector_to_resume]: the owner of a vector, or the empty string. *)
Definition vector_to_resume (vector_id : Z) (st : db) : string :=
  match chunks st !! vector_id with
  | Some row => chunk_resume_id row
  | None => ""
  end.

Definition index_size (st : db) : nat := Faiss.ntotal (index st).

(** [get_chunks_for_resume]: [SELECT vector_id, text ... WHERE resume_id = ?
    ORDER BY vector_id]. *)
Definition get_chunks_for_resume (rid : string) (st : db) : list (Z * string) :=
  let rows := map_to_list (filter (λ kv, chunk_resume_id kv.2 = rid) (chunks st)) in
  (λ kv, (kv.1, chunk_text kv.2)) <$> merge_sort by_vector_id rows.

End Db.
Arguments db : clear implicits.
Arguments query : clear implicits.
Arguments index_file : clear implicits.
Arguments Proc : clear implicits.

(** The rows [insert_resume] hands to [executemany]. *)
Definition chunk_rows (meta : Meta) (next : Z) (chunks_ : list string) : list (Z * chunk_row) :=
  (λ p, (p.1, mkChunk (resume_id meta) p.2))
    <$> zip (Np.arange next (next + Z.of_nat (length chunks_))) chunks_.

(** Row-wise form of the normalisation, used to state what it returns. *)
Definition normalize_row {F : Type} `{!Scalar F} (row : list F) : list F :=
  (λ x, s_div x (s_add (Np.row_norm row) s_eps)) <$> row.

(** ** Runs of the module within one process *)

Section Runs.
Context {F : Type} `{!Scalar F}.

Definition outcome {A} (p : Proc F A) (st : db F) : result A := (p st).1.
Definition exec {A} (p : Proc F A) (st : db F) : db F := (p st).2.

Inductive op : Type :=
| OpInsert (meta : Meta) (chunks_ : list string) (embeddings : list (list F))
| OpDelete (rid : string).

Definition step (o : op) (st : db F) : db F :=
  match o with
  | OpInsert meta chunks_ embeddings => exec (insert_resume meta chunks_ embeddings) st
  | OpDelete rid => exec (delete_resume rid) st
  end.

Definition index_ids (st : db F) : list Z := (Faiss.entries (index st)).*1.

(** The identifiers a call attaches to vectors: those of the entries it
    appends to the index. *)
Definition issued (o : op) (st : db F) : list Z :=
  match o with
  | OpInsert _ _ _ => drop (index_size st) (index_ids (step o st))
  | OpDelete _ => []
  end.

(** The vectors a call stores. *)
Definition stored (o : op) (st : db F) : list (list F) :=
  match o with
  | OpInsert _ _ _ => (drop (index_size st) (Faiss.entries (index (step o st)))).*2
  | OpDelete _ => []
  end.

(** A sequence of calls, with the identifiers issued by each. *)
Fixpoint run (ops : list op) (st : db F) : list (list Z) * db F :=
  match ops with
  | [] => ([], st)
  | o :: rest => let '(log, st') := run rest (step o st) in (issued o st :: log, st')
  end.

(** The cursor is above every identifier of table [chunks]; true at import
    by [_next_free_vector_id]. *)
Definition cursor_above_chunks (st : db F) : Prop :=
  ∀ k, is_Some (chunks st !! k) → (k < _next_id st)%Z.

(** Queries that pass the shape dispatch and [np.asarray]: an array, a
    non-empty list of floats, or a non-empty list of rows of one length. *)
Definition well_formed (q : query F) : bool :=
  match q with
  | QArray (Np.Arr1 _) => true
  | QArray (Np.Arr2 c rows) => forallb (λ r, length r =? c) rows
  | QList v => negb (bool_decide (v = []))
  | QBatch [] => false
  | QBatch (r :: rs) => forallb (λ r', length r' =? length r) rs
  | QOther => false
  end.

(** The query rows a well-formed query stands for. *)
Definition query_rows (q : query F) : list (list F) :=
  match q with
  | QArray (Np.Arr1 v) => [v]
  | QArray (Np.Arr2 _ rows) => rows
  | QList v => [v]
  | QBatch rows => rows
  | QOther => []
  end.

(** Their common length (the second component of the array shape). *)
Definition query_cols (q : query F) : nat :=
  match q with
  | QArray (Np.Arr1 v) => length v
  | QArray (Np.Arr2 c _) => c
  | QList v => length v
  | QBatch (r :: _) => length r
  | QBatch [] | QOther => 0
  end.

(** Hits of one query row as the index contract gives them: the [k] best by
    inner product, without the padding label. *)
Definition hits_of_row (st : db F) (k : Z) (row : list F) : list (F * Z) :=
  filter (λ hit, hit.2 ≠ (-1)%Z)
    (Faiss.knn (index st) (Z.to_nat (k `min` Z.of_nat (Faiss.ntotal (index st)))) row).

(** Reading of "the result contains, per query vector in the batch, its
    hits": the hits of every normalised query row occur in the result. *)
Definition answers_every_query (q : query F) (k : Z) (st : db F) : Prop :=
  ∀ c rows res,
    normalize_query q = Ok (Np.Arr2 c rows) →
    search_vectors q k st = Ok res →
    Forall (λ row, hits_of_row st k row ⊆ res) rows.

(** What [search_vectors] returns on a non-empty index: the hits of the
    first query row, or nothing when the engine refuses the query. *)
Definition first_query_hits (q : query F) (k : Z) (st : db F) : list (F * Z) :=
  if negb (query_cols q =? Faiss.d (index st)) then []
  else if negb (0 <? k `min` Z.of_nat (Faiss.ntotal (index st)))%Z then []
  else match query_rows q with
       | [] => []
       | row :: _ => hits_of_row st k (normalize_row row)
       end.

(** Reading of "[get_metadata] returns a record whose version field equals
    [v]". *)
Definition meta_version_is (rid : string) (v : Z) (st : db F) : Prop :=
  fetch_meta rid st ≫= (λ dict, dict !! "version") = Some (PyInt v).

(** A store just created: no index file, empty tables. *)
Definition fresh : db F := mkDb (Faiss.IndexIDMap_FlatIP VECTOR_DIM) ∅ ∅ 0.

(** Reading of "a zero-chunk insert succeeds and upserts the Document row,
    leaving the other tables, the index and the cursor alone". *)
Definition zero_chunk_insert_succeeds (meta : Meta) (st : db F) : Prop :=
  let st' := exec (insert_resume meta [] []) st in
  outcome (insert_resume meta [] []) st = Ok tt
  ∧ resumes st' = upsert_resume meta (resumes st)
  ∧ chunks st' = chunks st ∧ index st' = index st ∧ _next_id st' = _next_id st.

(** Reading of "the call is rejected": it raises. *)
Definition rejected {A} (r : result A) : Prop := ∃ e, r = Raise e.

End Runs.
Arguments op : clear implicits.

(** Exact arithmetic: the L2 norm of a stored vector is within [1e-6] of 1. *)
Definition unit_norm (v : list R) : Prop :=
  (Rabs (Np.row_norm v - 1) <= / 1000000)%R.

(** Reading of "every vector stored by an insert has unit norm". *)
Definition stores_unit_vectors (meta : Meta) (chunks_ : list string)
    (embeddings : list (list R)) (st : db R) : Prop :=
  outcome (insert_resume meta chunks_ embeddings) st = Ok tt →
  Forall unit_norm (stored (OpInsert meta chunks_ embeddings) st).

(** Concrete data for the examples: one-hot [float32] vectors of the
    configured dimension. *)
Definition basis (i : nat) : list Binary32.t :=
  replicate i Binary32.zero ++ [Binary32.one] ++ replicate (VECTOR_DIM - 1 - i) Binary32.zero.

Definition doc (rid : string) : Meta := mkMeta rid "Ann" "ann@example.com" ["python"] 3.

(** A new store after [D1] (two chunks), and after [D1] then [D2] (three
    chunks). *)
Definition D1_store : db Binary32.t :=
  exec (insert_resume (doc "D1") ["a"; "b"] [basis 0; basis 1]) fresh.

Definition D12_store : db Binary32.t :=
  exec (insert_resume (doc "D2") ["c"; "d"; "e"] [basis 2; basis 3; basis 4]) D1_store.

(** ** More of [db.py]: listings, the metadata filter, and what ties the
    index to table [chunks] *)

Section Listing.
Context {F : Type} `{!Scalar F}.

(** [get_all_resume_ids]: [SELECT resume_id FROM resumes].  SQL leaves the
    order of the rows open; the model lists them in the order of the map. *)
Definition get_all_resume_ids (st : db F) : list string :=
  (map_to_list (resumes st)).*1.

(** The index and table [chunks] hold the same identifiers, each once. *)
Definition index_matches_chunks (st : db F) : Prop :=
  NoDup (index_ids st) ∧ ∀ k, k ∈ index_ids st ↔ is_Some (chunks st !! k).

(** The operands of [search_by_metadata] that are not Python integers or
    lists: SQLite's [text LIKE pattern], [json.dumps] on a list of strings
    (what column [skills] holds) and [str.lower]. *)
Context (like : string → string → bool)
        (json_dumps : list string → string)
        (lower : string → string).

(** The WHERE clauses [search_by_metadata] collects, as tests on a row.  A
    filter that is [None], an empty skill list and an empty name pattern add
    no clause. *)
Definition where_clauses (skills_ : option (list string)) (min_years max_years : option Z)
    (name_pattern : option string) : list (resume_row → bool) :=
  match skills_ with
  | Some ((_ :: _) as wanted) =>
      [λ row, existsb (λ skill, like (json_dumps (row_skills row))
                                      ("%" +:+ lower skill +:+ "%")) wanted]
  | _ => []
  end
  ++ match min_years with
     | Some y => [λ row, (y <=? row_years_experience row)%Z]
     | None => []
     end
  ++ match max_years with
     | Some y => [λ row, (row_years_experience row <=? y)%Z]
     | None => []
     end
  ++ match name_pattern with
     | Some pat => if bool_decide (pat = "") then []
                   else [λ row, like (row_name row) ("%" +:+ pat +:+ "%")]
     | None => []
     end.

(** [search_by_metadata]: the ids of the rows passing every clause
    ([" AND ".join(clauses)], or [1=1] when there is none). *)
Definition search_by_metadata (skills_ : option (list string)) (min_years max_years : option Z)
    (name_pattern : option string) (st : db F) : list string :=
  (map_to_list
     (filter (λ kv, forallb (λ clause, clause kv.2)
                      (where_clauses skills_ min_years max_years name_pattern) = true)
        (resumes st))).*1.

End Listing.

(** A store in exact arithmetic holding one one-hot vector. *)
Definition R1_store : db R :=
  exec (insert_resume (doc "D1") ["a"] [1%R :: replicate (VECTOR_DIM - 1) 0%R]) fresh.

(** * Facts *)

(** ** Normalisation *)

Section NormalizeFacts.
Context {F : Type} `{!Scalar F}.

Lemma l2_normalize_nil : _l2_normalize (Np.PyList (@nil (list F))) = Raise AxisError.
Proof. reflexivity. Qed.

Lemma divide_by_norms c (rows : list (list F)) :
  Np.divide (Np.Arr2 c rows) ((λ n, s_add n s_eps) <$> (Np.row_norm <$> rows))
  = Np.Arr2 c (normalize_row <$> rows).
Proof.
  unfold Np.divide. f_equal.
  induction rows as [|row rows IH]; csimpl; [done|]. by rewrite IH.
Qed.

Lemma l2_normalize_rows (r : list F) rs :
  forallb (λ r', length r' =? length r) rs = true →
  _l2_normalize (Np.PyList (r :: rs))
  = Ok (Np.Arr2 (length r) (normalize_row <$> r :: rs)).
Proof.
  intros Hrect. unfold _l2_normalize. simpl. rewrite Hrect. simpl.
  unfold mret, result_ret. f_equal. apply (divide_by_norms (length r) (r :: rs)).
Qed.

Lemma l2_normalize_ragged (r : list F) rs :
  forallb (λ r', length r' =? length r) rs = false →
  _l2_normalize (Np.PyList (r :: rs)) = Raise ValueError.
Proof. intros Hrag. unfold _l2_normalize. simpl. by rewrite Hrag. Qed.

Lemma l2_normalize_array2 c (rows : list (list F)) :
  _l2_normalize (Np.NdArray (Np.Arr2 c rows)) = Ok (Np.Arr2 c (normalize_row <$> rows)).
Proof.
  unfold _l2_normalize. simpl. unfold mret, result_ret. f_equal.
  apply divide_by_norms.
Qed.

(** The normalisation returns a 2-D array with as many rows as it was
    given, whenever it returns. *)
Lemma l2_normalize_list_inv (vectors : list (list F)) x :
  _l2_normalize (Np.PyList vectors) = Ok x →
  ∃ r rs, vectors = r :: rs ∧ x = Np.Arr2 (length r) (normalize_row <$> vectors).
Proof.
  destruct vectors as [|r rs]; [done|].
  destruct (forallb (λ r', length r' =? length r) rs) eqn:Hrect.
  - rewrite l2_normalize_rows by done. intros [= <-]. eauto.
  - by rewrite l2_normalize_ragged.
Qed.

Lemma normalize_row_length (row : list F) : length (normalize_row row) = length row.
Proof. unfold normalize_row. by rewrite length_fmap. Qed.

End NormalizeFacts.

(** ** Statements of the module, unfolded *)

Section InsertFacts.
Context {F : Type} `{!Scalar F}.
Implicit Types (st : db F) (meta : Meta) (rows : list (Z * chunk_row)).

Ltac proc_unfold :=
  unfold insert_resume, delete_resume, modify, gets, lift, raise,
    mbind, proc_bind, mret, proc_ret.

(** [insert_resume] as a decision tree over its four points of failure. *)
Lemma insert_resume_unfold meta chunks_ embeddings st :
  insert_resume meta chunks_ embeddings st =
  if negb (length chunks_ =? length embeddings) then (Raise ValueError, st) else
  let st1 := set_resumes (upsert_resume meta (resumes st)) st in
  let next := _next_id st in
  match _l2_normalize (Np.PyList embeddings) with
  | Raise e => (Raise e, st1)
  | Ok x =>
      match Faiss.add_with_ids (index st) x
              (Np.arange next (next + Z.of_nat (length chunks_))) with
      | Raise e => (Raise e, st1)
      | Ok idx' =>
          match executemany insert_chunk (chunk_rows meta next chunks_)
                  (set_index idx' st1) with
          | (Ok _, st3) => (Ok tt, set_next_id (next + Z.of_nat (length chunks_)) st3)
          | (Raise e, st3) => (Raise e, st3)
          end
      end
  end.
Proof.
  proc_unfold. destruct (negb _); [done|]. simpl.
  destruct (_l2_normalize _) as [x|e]; [|done]. simpl.
  destruct (Faiss.add_with_ids _ _ _) as [idx'|e]; [|done]. simpl.
  unfold chunk_rows. by destruct (executemany _ _ _) as [[[]|e] st3].
Qed.

(** [executemany] touches table [chunks] only, and only adds rows. *)
Lemma executemany_frame rows st r st' :
  executemany insert_chunk rows st = (r, st') →
  index st' = index st ∧ resumes st' = resumes st ∧ _next_id st' = _next_id st
  ∧ chunks st ⊆ chunks st'.
Proof.
  revert st. induction rows as [|row rows IH]; intros st; simpl.
  - intros [= <- <-]. done.
  - unfold mbind, proc_bind, insert_chunk.
    destruct (chunks st !! row.1) eqn:Hrow.
    + intros [= <- <-]. done.
    + intros Hrest. apply IH in Hrest as (-> & -> & -> & Hsub). simpl.
      repeat split; [done..|].
      etrans; [|exact Hsub]. simpl. by apply insert_subseteq.
Qed.

(** Rows with distinct, unused identifiers are all inserted. *)
Lemma executemany_fresh rows st :
  NoDup rows.*1 →
  (∀ k, k ∈ rows.*1 → chunks st !! k = None) →
  executemany insert_chunk rows st
  = (Ok tt, set_chunks (list_to_map rows ∪ chunks st) st).
Proof.
  revert st. induction rows as [|[k row] rows IH]; intros st Hnd Hfree; simpl.
  - rewrite (left_id_L ∅ (∪)). by destruct st.
  - apply NoDup_cons in Hnd as [Hk Hnd].
    unfold mbind, proc_bind, insert_chunk. simpl.
    rewrite Hfree by (rewrite fmap_cons; apply list_elem_of_here).
    rewrite IH; [|done|].
    + unfold set_chunks. simpl. f_equal. f_equal.
      rewrite <- insert_union_r, insert_union_l; [done|].
      by apply not_elem_of_list_to_map_1.
    + intros k' Hk'. simpl. rewrite lookup_insert_ne by (intros ->; done).
      apply Hfree. rewrite fmap_cons. by apply list_elem_of_further.
Qed.

Lemma arange_elem (a b k : Z) : k ∈ Np.arange a b ↔ (a ≤ k < b)%Z.
Proof. unfold Np.arange. rewrite elem_of_seqZ. lia. Qed.

Lemma arange_length (a : Z) (n : nat) : length (Np.arange a (a + Z.of_nat n)) = n.
Proof. unfold Np.arange. rewrite length_seqZ. lia. Qed.

Lemma chunk_rows_ids meta next chunks_ :
  (chunk_rows meta next chunks_).*1 = Np.arange next (next + Z.of_nat (length chunks_)).
Proof.
  unfold chunk_rows. rewrite <- list_fmap_compose.
  transitivity ((zip (Np.arange next (next + Z.of_nat (length chunks_))) chunks_).*1).
  - by apply list_fmap_ext.
  - apply fst_zip. rewrite arange_length. lia.
Qed.

End InsertFacts.

Section InsertOutcomes.
Context {F : Type} `{!Scalar F}.
Implicit Types (st : db F) (meta : Meta).

Lemma add_with_ids_Ok_inv (idx idx' : Faiss.index F) x ids :
  Faiss.add_with_ids idx x ids = Ok idx' →
  ∃ rows, x = Np.Arr2 (Faiss.d idx) rows ∧ length ids = length rows
          ∧ idx' = Faiss.Index (Faiss.d idx) (Faiss.entries idx ++ zip ids rows).
Proof.
  unfold Faiss.add_with_ids. destruct x as [v|dx rows]; [done|].
  destruct (dx =? Faiss.d idx) eqn:Hd; simpl; [|done].
  destruct (length ids =? length rows) eqn:Hn; simpl; [|done].
  apply Nat.eqb_eq in Hd as ->. apply Nat.eqb_eq in Hn.
  intros [= <-]. eauto.
Qed.

Lemma add_with_ids_Ok (idx : Faiss.index F) rows ids :
  length ids = length rows →
  Faiss.add_with_ids idx (Np.Arr2 (Faiss.d idx) rows) ids
  = Ok (Faiss.Index (Faiss.d idx) (Faiss.entries idx ++ zip ids rows)).
Proof.
  intros Hn. unfold Faiss.add_with_ids.
  by rewrite Nat.eqb_refl, Hn, Nat.eqb_refl.
Qed.

(** A call that fails leaves the index, table [chunks] and the cursor alone
    unless it fails inside [executemany]; a call that returns has appended
    the normalised rows under the identifiers [_next_id, ...]. *)
Lemma insert_resume_Ok_inv meta chunks_ embeddings st st' :
  insert_resume meta chunks_ embeddings st = (Ok tt, st') →
  length chunks_ = length embeddings
  ∧ ∃ rows,
      _l2_normalize (Np.PyList embeddings) = Ok (Np.Arr2 (Faiss.d (index st)) rows)
      ∧ length rows = length chunks_
      ∧ index st' = Faiss.Index (Faiss.d (index st))
          (Faiss.entries (index st)
             ++ zip (Np.arange (_next_id st) (_next_id st + Z.of_nat (length chunks_))) rows)
      ∧ resumes st' = upsert_resume meta (resumes st)
      ∧ chunks st ⊆ chunks st'
      ∧ _next_id st' = (_next_id st + Z.of_nat (length chunks_))%Z.
Proof.
  rewrite insert_resume_unfold. intros Hins.
  destruct (length chunks_ =? length embeddings) eqn:Hlen; simpl in Hins; [|done].
  apply Nat.eqb_eq in Hlen. split; [done|].
  destruct (_l2_normalize _) as [x|e] eqn:Hnorm; [|done].
  destruct (Faiss.add_with_ids _ _ _) as [idx'|e] eqn:Hadd; [|done].
  destruct (executemany _ _ _) as [[[]|e] st3] eqn:Hrows; [|done].
  injection Hins as <-.
  apply add_with_ids_Ok_inv in Hadd as (rows & -> & Hn & ->).
  apply executemany_frame in Hrows as (Hidx & Hres & Hnext & Hsub).
  rewrite arange_length in Hn.
  exists rows. simpl. rewrite Hidx, Hres. by repeat split.
Qed.

(** Under the cursor invariant [executemany] cannot fail, so a call either
    fails before touching the index or goes through. *)
Lemma insert_resume_cases meta chunks_ embeddings st r st' :
  cursor_above_chunks st →
  insert_resume meta chunks_ embeddings st = (r, st') →
  ((∃ e, r = Raise e) ∧ index st' = index st ∧ chunks st' = chunks st
     ∧ _next_id st' = _next_id st)
  ∨ (r = Ok tt
     ∧ chunks st' = list_to_map (chunk_rows meta (_next_id st) chunks_) ∪ chunks st).
Proof.
  intros Hinv. rewrite insert_resume_unfold.
  destruct (negb _); [intros [= <- <-]; left; eauto|]. simpl.
  destruct (_l2_normalize _) as [x|e]; [|intros [= <- <-]; left; eauto].
  destruct (Faiss.add_with_ids _ _ _) as [idx'|e]; [|intros [= <- <-]; left; eauto].
  rewrite executemany_fresh.
  - intros [= <- <-]. by right.
  - rewrite chunk_rows_ids. apply NoDup_seqZ.
  - intros k. rewrite chunk_rows_ids, arange_elem. simpl. intros Hk.
    destruct (chunks st !! k) eqn:Hrow; [|done].
    assert (k < _next_id st)%Z by (apply Hinv; eauto). lia.
Qed.

(** Whatever its outcome, [insert_resume] removes no chunk row and no index
    entry. *)
Lemma insert_resume_grows meta chunks_ embeddings st r st' :
  insert_resume meta chunks_ embeddings st = (r, st') →
  chunks st ⊆ chunks st'
  ∧ Faiss.entries (index st) `prefix_of` Faiss.entries (index st').
Proof.
  rewrite insert_resume_unfold.
  destruct (negb _); [by intros [= <- <-]|]. simpl.
  destruct (_l2_normalize _) as [x|e]; [|by intros [= <- <-]].
  destruct (Faiss.add_with_ids _ _ _) as [idx'|e] eqn:Hadd; [|by intros [= <- <-]].
  apply add_with_ids_Ok_inv in Hadd as (rows & -> & Hn & ->).
  destruct (executemany _ _ _) as [[[]|e] st3] eqn:Hrows;
    apply executemany_frame in Hrows as (Hidx & _ & _ & Hsub);
    intros [= <- <-]; simpl; rewrite Hidx; (split; [done|by apply prefix_app_r]).
Qed.

(** A non-empty insert of rows of the index dimension goes through. *)
Lemma insert_resume_Ok meta chunks_ embeddings st :
  cursor_above_chunks st →
  embeddings ≠ [] →
  length chunks_ = length embeddings →
  Forall (λ row, length row = Faiss.d (index st)) embeddings →
  insert_resume meta chunks_ embeddings st
  = (Ok tt,
     mkDb (Faiss.Index (Faiss.d (index st))
             (Faiss.entries (index st)
                ++ zip (Np.arange (_next_id st) (_next_id st + Z.of_nat (length chunks_)))
                       (normalize_row <$> embeddings)))
          (upsert_resume meta (resumes st))
          (list_to_map (chunk_rows meta (_next_id st) chunks_) ∪ chunks st)
          (_next_id st + Z.of_nat (length chunks_))).
Proof.
  intros Hinv Hne Hlen Hdim. rewrite insert_resume_unfold.
  rewrite Hlen, Nat.eqb_refl. simpl.
  destruct embeddings as [|r rs]; [done|].
  apply Forall_cons in Hdim as [Hr Hrs].
  rewrite l2_normalize_rows.
  2:{ apply forallb_forall. intros r' Hr'%list_elem_of_In. apply Nat.eqb_eq.
      rewrite Forall_forall in Hrs. rewrite Hr. by apply Hrs. }
  rewrite Hr, add_with_ids_Ok by (by rewrite arange_length, length_fmap).
  rewrite executemany_fresh.
  - done.
  - rewrite chunk_rows_ids. apply NoDup_seqZ.
  - intros k. rewrite chunk_rows_ids, arange_elem. simpl. intros Hk.
    destruct (chunks st !! k) eqn:Hrow; [|done].
    assert (k < _next_id st)%Z by (apply Hinv; eauto). lia.
Qed.

End InsertOutcomes.

(** ** Validation in [insert_resume] *)

Section InsertValidation.
Context {F : Type} `{!Scalar F}.
Implicit Types (st : db F) (meta : Meta).

(** C8. An insert whose chunk texts and embeddings differ in number raises
    [ValueError] and leaves every global as it was: both tables, the index
    and the cursor. *)
Theorem insert_arity_mismatch_rejected meta chunks_ (embeddings : list (list F)) st :
  length chunks_ ≠ length embeddings →
  insert_resume meta chunks_ embeddings st = (Raise ValueError, st).
Proof.
  intros Hne. rewrite insert_resume_unfold.
  by apply Nat.eqb_neq in Hne as ->.
Qed.

(** C10, as the code has it. An insert with no chunks does not return: the
    normalisation of the empty list raises (axis 1 of a 1-D array) once the
    [resumes] upsert has been executed.  Table [chunks], the index and the
    cursor are unchanged. *)
Theorem insert_zero_chunks_raises meta st :
  let st' := exec (insert_resume meta [] []) st in
  outcome (insert_resume meta [] []) st = Raise AxisError
  ∧ chunks st' = chunks st ∧ index st' = index st ∧ _next_id st' = _next_id st
  ∧ resumes st' = upsert_resume meta (resumes st).
Proof.
  unfold outcome, exec. rewrite insert_resume_unfold. by simpl.
Qed.

End InsertValidation.

(** C8, at a store holding nothing: one text, no embedding. *)
Lemma insert_arity_mismatch_rejected_witness :
  insert_resume (doc "D1") ["a"] [] (fresh : db Binary32.t)
  = (Raise ValueError, fresh).
Proof. apply insert_arity_mismatch_rejected. simpl. lia. Defined.

(** C10 as first stated fails already on a new store. *)
Lemma zero_chunk_insert_fails :
  ¬ zero_chunk_insert_succeeds (doc "D1") (fresh : db Binary32.t).
Proof. intros [Hok _]. vm_compute in Hok. discriminate Hok. Qed.

(** ** [search_vectors]: validation and the empty index *)

Section SearchValidation.
Context {F : Type} `{!Scalar F}.
Implicit Types (st : db F) (q : query F).

Lemma normalize_query_well_formed q :
  well_formed q = true →
  normalize_query q = Ok (Np.Arr2 (query_cols q) (normalize_row <$> query_rows q)).
Proof.
  destruct q as [[v|c rows]|[|x v]|[|r rs]|]; simpl; intros Hwf.
  - by apply (l2_normalize_rows v []).
  - apply l2_normalize_array2.
  - done.
  - by apply (l2_normalize_rows (x :: v) []).
  - done.
  - by apply l2_normalize_rows.
  - done.
Qed.

(** C9. The empty list is refused as a query, whatever the index holds and
    whatever [top_k] is; a one-vector query on an empty index of any
    dimension is answered with the empty list. *)
Theorem search_empty_list_raises st (top_k : Z) :
  search_vectors (QList []) top_k st = Raise ValueError
  ∧ search_vectors (QBatch []) top_k st = Raise ValueError
  ∧ ∀ x v dim tbl, search_vectors (QList (x :: v)) top_k
                     (mkDb (Faiss.IndexIDMap_FlatIP dim) tbl ∅ 0) = Ok [].
Proof.
  split; [done|]. split; [done|]. intros x v dim tbl. unfold search_vectors.
  simpl normalize_query. by rewrite (l2_normalize_rows (x :: v) []).
Qed.

(** C7. On an empty index every well-formed query gets the empty list; no
    exception is raised and the engine is not consulted. *)
Theorem search_empty_index q (top_k : Z) st :
  well_formed q = true →
  index_size st = 0 →
  search_vectors q top_k st = Ok [].
Proof.
  intros Hwf Hempty. unfold search_vectors.
  rewrite (normalize_query_well_formed q Hwf). simpl.
  unfold index_size in Hempty. by rewrite Hempty.
Qed.

(** C6, as the code has it. [top_k] is never validated: with [top_k <= 0] a
    well-formed query returns the empty list, either at once (empty index)
    or because the engine's refusal is caught. *)
Theorem search_nonpositive_top_k q (top_k : Z) st :
  well_formed q = true →
  (top_k ≤ 0)%Z →
  search_vectors q top_k st = Ok [].
Proof.
  intros Hwf Hk. unfold search_vectors.
  rewrite (normalize_query_well_formed q Hwf). simpl.
  destruct (Faiss.ntotal (index st) =? 0); [done|].
  unfold Faiss.search. destruct (query_cols q =? Faiss.d (index st)); simpl; [|done].
  destruct (0 <? top_k `min` _)%Z eqn:Hpos; simpl; [|done].
  apply Z.ltb_lt in Hpos. lia.
Qed.

End SearchValidation.

(** ** The allocator cursor *)

Section Allocator.
Context {F : Type} `{!Scalar F}.
Implicit Types (st : db F) (meta : Meta) (o : op F).

Lemma sql_max_ge (col : list Z) k :
  k ∈ col → ∃ m, sql_max col = Some m ∧ (k ≤ m)%Z.
Proof.
  destruct col as [|x rest]; [by intros ?%elem_of_nil|]. simpl.
  intros Hk. eexists; split; [done|]. revert Hk.
  induction rest as [|y rest IH]; simpl.
  - intros ->%list_elem_of_singleton. lia.
  - rewrite !elem_of_cons. intros [->|[->|Hk]].
    + assert (x ≤ foldr Z.max x rest)%Z by (apply IH; left). lia.
    + lia.
    + assert (k ≤ foldr Z.max x rest)%Z by (apply IH; by right). lia.
Qed.

(** Established at import. *)
Lemma startup_cursor file resumes0 chunks0 st :
  startup file resumes0 chunks0 = Ok st →
  cursor_above_chunks st ∧ chunks st = chunks0
  ∧ _next_id st = _next_free_vector_id chunks0.
Proof.
  unfold startup. destruct (_init_index file) as [idx|e]; [|done].
  intros [= <-]. split; [|done]. intros k [row Hrow]. simpl in *.
  unfold _next_free_vector_id.
  destruct (sql_max_ge (map_to_list chunks0).*1 k) as (m & -> & Hm); [|simpl; lia].
  apply list_elem_of_fmap. exists (k, row). split; [done|].
  by apply elem_of_map_to_list.
Qed.

Lemma delete_resume_unfold rid st :
  delete_resume rid st =
  let vec_ids := (map_to_list (filter (λ kv, chunk_resume_id kv.2 = rid) (chunks st))).*1 in
  (Ok tt,
   mkDb (if bool_decide (vec_ids = []) then index st
         else Faiss.remove_ids (index st) vec_ids)
        (delete rid (resumes st))
        (filter (λ kv, chunk_resume_id kv.2 ≠ rid) (chunks st))
        (_next_id st)).
Proof.
  unfold delete_resume, modify, gets, mbind, proc_bind, mret, proc_ret. simpl.
  by destruct (bool_decide _).
Qed.

(** Preserved by every call, which issues exactly the identifiers between
    the old and the new cursor. *)
Lemma step_cursor o st :
  cursor_above_chunks st →
  cursor_above_chunks (step o st)
  ∧ (_next_id st ≤ _next_id (step o st))%Z
  ∧ issued o st = seqZ (_next_id st) (_next_id (step o st) - _next_id st).
Proof.
  intros Hinv. destruct o as [meta chunks_ embeddings|rid].
  - unfold issued, step, exec.
    destruct (insert_resume meta chunks_ embeddings st) as [r st'] eqn:Hins. simpl.
    destruct (insert_resume_cases _ _ _ _ _ _ Hinv Hins)
      as [(_ & Hidx & Hch & Hnext)|[-> Hch]].
    + rewrite Hnext, Z.sub_diag. unfold index_ids, cursor_above_chunks.
      rewrite Hidx, Hch, Hnext. unfold index_size, Faiss.ntotal.
      rewrite <- (length_fmap fst), drop_all. by repeat split; [|lia].
    + apply insert_resume_Ok_inv in Hins as (_ & rows & _ & Hn & Hidx & _ & _ & Hnext).
      repeat split.
      * intros k. rewrite Hch, Hnext, lookup_union_is_Some.
        intros [[row Hrow]|Hold].
        -- apply elem_of_list_to_map_2, (list_elem_of_fmap_2 fst) in Hrow.
           rewrite chunk_rows_ids in Hrow. by apply arange_elem in Hrow as [_ ?].
        -- apply Hinv in Hold. lia.
      * lia.
      * unfold index_ids, index_size, Faiss.ntotal. rewrite Hidx. simpl.
        rewrite fmap_app, <- (length_fmap fst), drop_app_length.
        rewrite fst_zip by (rewrite arange_length; lia).
        rewrite Hnext. unfold Np.arange. f_equal; lia.
  - unfold issued, step, exec. rewrite delete_resume_unfold. simpl.
    rewrite Z.sub_diag. repeat split; [|lia].
    intros k [row Hrow]. simpl in Hrow.
    apply map_lookup_filter_Some in Hrow as [Hrow _]. apply Hinv. eauto.
Qed.

Lemma seqZ_sorted (a n : Z) : StronglySorted Z.lt (seqZ a n).
Proof.
  destruct (decide (0 ≤ n)%Z) as [Hn|Hn]; [|rewrite seqZ_nil by lia; constructor].
  rewrite <- (Z2Nat.id n Hn). generalize (Z.to_nat n) as m. clear.
  induction m as [|m IH]; [constructor|].
  rewrite seqZ_S. apply StronglySorted_app_2; [|done|repeat constructor].
  intros x y Hx ->%list_elem_of_singleton. apply elem_of_seqZ in Hx. lia.
Qed.

(** Used: along any run the issued identifiers increase strictly and lie
    between the first and the last cursor. *)
Lemma run_issued_sorted (ops : list (op F)) st :
  cursor_above_chunks st →
  StronglySorted Z.lt (concat (run ops st).1)
  ∧ Forall (λ i, _next_id st ≤ i < _next_id (run ops st).2)%Z (concat (run ops st).1)
  ∧ (_next_id st ≤ _next_id (run ops st).2)%Z.
Proof.
  revert st. induction ops as [|o ops IH]; intros st Hinv; simpl.
  - repeat split; [constructor|constructor|lia].
  - destruct (step_cursor o st Hinv) as (Hinv' & Hle & Hiss).
    destruct (IH _ Hinv') as (Hsorted & Hrange & Hle').
    destruct (run ops (step o st)) as [log st'] eqn:Hrun. simpl in *.
    rewrite Forall_forall in Hrange. repeat split.
    + apply StronglySorted_app_2; [|rewrite Hiss; apply seqZ_sorted|done].
      intros x y Hx Hy. rewrite Hiss in Hx. apply elem_of_seqZ in Hx.
      apply Hrange in Hy. lia.
    + apply Forall_app. split; apply Forall_forall; intros x Hx.
      * rewrite Hiss in Hx. apply elem_of_seqZ in Hx. lia.
      * apply Hrange in Hx. lia.
    + lia.
Qed.

End Allocator.

Section AllocatorClaims.
Context {F : Type} `{!Scalar F}.

Lemma startup_fresh : startup NoFile ∅ ∅ = Ok (fresh : db F).
Proof. reflexivity. Qed.

Lemma sorted_lt_NoDup (l : list Z) : StronglySorted Z.lt l → NoDup l.
Proof.
  induction 1 as [|x l Hl IH Hx]; constructor; [|done].
  intros Hin. rewrite Forall_forall in Hx. apply Hx in Hin. lia.
Qed.

Lemma fresh_cursor : cursor_above_chunks (fresh : db F).
Proof. intros k [row Hrow]. simpl in Hrow. by rewrite lookup_empty in Hrow. Qed.

Lemma step_insert meta chunks_ embeddings (st st' : db F) r :
  insert_resume meta chunks_ embeddings st = (r, st') →
  step (OpInsert meta chunks_ embeddings) st = st'.
Proof. intros Hins. unfold step, exec. by rewrite Hins. Qed.


End AllocatorClaims.


(** ** Re-inserting a document *)

Section Reinsert.
Context {F : Type} `{!Scalar F}.
Implicit Types (st : db F) (meta : Meta).

Lemma upsert_resume_lookup meta tbl :
  upsert_resume meta tbl !! resume_id meta
  = Some (mkResume (name meta) (email meta) (skills meta) (years_experience meta)
            (from_option (λ old, row_version old + 1)%Z 1%Z (tbl !! resume_id meta))).
Proof.
  unfold upsert_resume. rewrite lookup_insert_eq. by destruct (tbl !! resume_id meta).
Qed.

(** C5, as the code has it. After two inserts of a document that was not
    there, its row carries version 1 and then 2; [fetch_meta] returns the
    name, skills and years of experience of the second insert and has no
    [version] key. *)
Theorem reinsert_version_two rid m1 c1 (e1 : list (list F)) m2 c2 e2 st st1 st2 :
  resume_id m1 = rid → resume_id m2 = rid →
  resumes st !! rid = None →
  insert_resume m1 c1 e1 st = (Ok tt, st1) →
  insert_resume m2 c2 e2 st1 = (Ok tt, st2) →
  row_version <$> resumes st1 !! rid = Some 1%Z
  ∧ row_version <$> resumes st2 !! rid = Some 2%Z
  ∧ fetch_meta rid st2
    = Some (<["name" := PyStr (name m2)]>
           (<["skills" := PyStrList (skills m2)]>
           (<["years_experience" := PyInt (years_experience m2)]> ∅)))
  ∧ fetch_meta rid st2 ≫= (λ dict, dict !! "version") = None.
Proof.
  intros <- Hrid Hnew Hins1 Hins2.
  apply insert_resume_Ok_inv in Hins1 as (_ & _ & _ & _ & _ & Hres1 & _).
  apply insert_resume_Ok_inv in Hins2 as (_ & _ & _ & _ & _ & Hres2 & _).
  assert (resumes st1 !! resume_id m1
          = Some (mkResume (name m1) (email m1) (skills m1) (years_experience m1) 1))
    as Hrow1 by (by rewrite Hres1, upsert_resume_lookup, Hnew).
  assert (resumes st2 !! resume_id m1
          = Some (mkResume (name m2) (email m2) (skills m2) (years_experience m2) 2))
    as Hrow2 by (by rewrite Hres2, <- Hrid, upsert_resume_lookup, Hrid, Hrow1).
  unfold fetch_meta. rewrite Hrow1, Hrow2. by repeat split.
Qed.

End Reinsert.

(** C5 on a new store: [D1] inserted twice. *)
Lemma reinsert_version_two_witness :
  row_version <$> resumes (exec (insert_resume (doc "D1") ["c"] [basis 2]) D1_store) !! "D1"
  = Some 2%Z.
Proof.
  refine (proj1 (proj2 (reinsert_version_two "D1"
    (doc "D1") ["a"; "b"] [basis 0; basis 1] (doc "D1") ["c"] [basis 2]
    fresh D1_store _ eq_refl eq_refl eq_refl _ _))).
  - vm_compute. reflexivity.
  - vm_compute. reflexivity.
Defined.

(** C5 as first stated fails: the dictionary has no [version] entry. *)
Lemma fetch_meta_hides_version :
  ¬ meta_version_is "D1" 2 (exec (insert_resume (doc "D1") ["c"] [basis 2]) D1_store).
Proof. unfold meta_version_is. vm_compute. discriminate. Qed.

(** C1, on the code. Inserting [D1] with chunks a, b and then again with
    chunk c leaves all three rows in table [chunks] and all three vectors in
    the index: nothing of the first insert is deleted. *)
Theorem reinsert_keeps_old_chunks :
  let st2 := exec (insert_resume (doc "D1") ["c"] [basis 2]) D1_store in
  outcome (insert_resume (doc "D1") ["a"; "b"] [basis 0; basis 1]) fresh = Ok tt
  ∧ outcome (insert_resume (doc "D1") ["c"] [basis 2]) D1_store = Ok tt
  ∧ get_chunks_for_resume "D1" st2 = [(0%Z, "a"); (1%Z, "b"); (2%Z, "c")]
  ∧ index_ids st2 = [0; 1; 2]%Z.
Proof. vm_compute. by repeat split. Qed.

(** C7 on a new store, with a batch of two queries. *)
Lemma search_empty_index_witness :
  search_vectors (QBatch [basis 0; basis 1]) 5 (fresh : db Binary32.t) = Ok [].
Proof. apply search_empty_index; reflexivity. Defined.

(** C6 with [top_k = -3] on a store holding two vectors. *)
Lemma search_nonpositive_top_k_witness :
  search_vectors (QList (basis 0)) (-3) D1_store = Ok [].
Proof. apply search_nonpositive_top_k; [reflexivity|lia]. Defined.

(** C6 as first stated fails: [top_k = 0] on a store holding two vectors is
    answered, not rejected. *)
Lemma search_top_k_zero_not_rejected :
  ¬ rejected (search_vectors (QList (basis 0)) 0 D1_store).
Proof. intros [e He]. vm_compute in He. discriminate He. Qed.

(** ** Unit norm of stored vectors, in exact arithmetic *)

Section UnitNorm.
Open Scope R_scope.
Implicit Types (row : list R) (st : db R).

Lemma foldl_sum_sq (acc : R) row :
  foldl (λ a x, a + x * x) acc row = acc + foldl (λ a x, a + x * x) 0 row.
Proof.
  revert acc. induction row as [|x row IH]; intros acc; simpl.
  - lra.
  - rewrite (IH (acc + x * x)), (IH (0 + x * x)). lra.
Qed.

Lemma sum_sq_nil : Np.sum_sq (@nil R) = 0.
Proof. reflexivity. Qed.

Lemma sum_sq_cons (x : R) row : Np.sum_sq (x :: row) = x * x + Np.sum_sq row.
Proof.
  change (Np.sum_sq (x :: row)) with (foldl (λ a x, a + x * x) (0 + x * x) row).
  change (Np.sum_sq row) with (foldl (λ a x, a + x * x) 0 row).
  rewrite foldl_sum_sq. lra.
Qed.

Lemma sum_sq_nonneg row : 0 <= Np.sum_sq row.
Proof.
  induction row as [|x row IH]; [rewrite sum_sq_nil; lra|].
  rewrite sum_sq_cons. nra.
Qed.

Lemma sum_sq_scale (c : R) row :
  c ≠ 0 → Np.sum_sq ((λ x, x / c) <$> row) = Np.sum_sq row / (c * c).
Proof.
  intros Hc. induction row as [|x row IH]; csimpl.
  - rewrite sum_sq_nil. by field.
  - rewrite !sum_sq_cons, IH. by field.
Qed.

Lemma row_norm_nonneg row : 0 <= Np.row_norm row.
Proof. apply sqrt_pos. Qed.

(** The norm of a normalised row is [n / (n + 1e-10)], [n] the norm of the
    row. *)
Lemma row_norm_normalize row :
  Np.row_norm (normalize_row row)
  = Np.row_norm row / (Np.row_norm row + / 10000000000).
Proof.
  pose proof (row_norm_nonneg row) as Hn.
  set (c := Np.row_norm row + / 10000000000).
  assert (0 < c) as Hc by (unfold c; lra).
  change (Np.row_norm (normalize_row row))
    with (sqrt (Np.sum_sq ((λ x, x / c) <$> row))).
  rewrite sum_sq_scale by lra.
  rewrite sqrt_div_alt by nra. by rewrite sqrt_square by lra.
Qed.

(** The stored norm is within [1e-6] of 1 exactly for rows of norm at least
    [1e-4 - 1e-10]. *)
Lemma normalize_row_unit row :
  unit_norm (normalize_row row) ↔ / 10000 - / 10000000000 <= Np.row_norm row.
Proof.
  pose proof (row_norm_nonneg row) as Hn.
  unfold unit_norm. rewrite row_norm_normalize.
  set (n := Np.row_norm row) in *.
  replace (n / (n + / 10000000000) - 1)
    with (- (/ 10000000000 / (n + / 10000000000))) by (field; lra).
  rewrite Rabs_Ropp, Rabs_pos_eq by (apply Rlt_le, Rdiv_lt_0_compat; lra).
  split; intros Hle.
  - apply (Rmult_le_compat_r (n + / 10000000000)) in Hle; [|lra].
    unfold Rdiv in Hle. rewrite Rmult_assoc, Rinv_l in Hle by lra. lra.
  - apply (Rmult_le_reg_r (n + / 10000000000)); [lra|].
    unfold Rdiv. rewrite Rmult_assoc, Rinv_l by lra. lra.
Qed.

(** The all-zero row is stored as it is, with norm 0. *)
Lemma normalize_row_zero (n : nat) :
  normalize_row (replicate n 0) = replicate n 0.
Proof.
  unfold normalize_row. rewrite fmap_replicate. f_equal.
  simpl. unfold Rdiv. apply Rmult_0_l.
Qed.

Lemma sum_sq_zero (n : nat) : Np.sum_sq (replicate n 0) = 0.
Proof.
  induction n as [|n IH]; [done|].
  simpl replicate. rewrite sum_sq_cons, IH. lra.
Qed.

Lemma row_norm_zero (n : nat) : Np.row_norm (replicate n 0) = 0.
Proof.
  change (Np.row_norm (replicate n 0)) with (sqrt (Np.sum_sq (replicate n 0))).
  rewrite sum_sq_zero. apply sqrt_0.
Qed.

(** What a returning insert stores: the normalised rows. *)
Lemma stored_by_insert meta chunks_ embeddings st :
  outcome (insert_resume meta chunks_ embeddings) st = Ok tt →
  stored (OpInsert meta chunks_ embeddings) st = normalize_row <$> embeddings.
Proof.
  unfold outcome, stored, step, exec.
  destruct (insert_resume meta chunks_ embeddings st) as [r st'] eqn:Hins.
  simpl. intros ->.
  apply insert_resume_Ok_inv in Hins as (_ & rows & Hnorm & Hn & -> & _).
  apply l2_normalize_list_inv in Hnorm as (r & rs & -> & [= _ ->]).
  simpl Faiss.entries. unfold index_size, Faiss.ntotal.
  rewrite drop_app_length. apply snd_zip. rewrite arange_length.
  change (length (normalize_row <$> r :: rs) = length chunks_) in Hn. by rewrite Hn.
Qed.




End UnitNorm.

(** ** Ranking of search hits *)

#[export] Instance real_order : ScalarOrder R.
Proof.
  split; simpl.
  - intros x y. destruct (Rle_dec x y), (Rle_dec y x); auto. lra.
  - intros x y z. destruct (Rle_dec x y), (Rle_dec y z), (Rle_dec x z); auto. lra.
Qed.

#[local] Existing Instance Faiss.score_desc_dec.

Section Ranking.
Context {F : Type} `{!Scalar F}.
Implicit Types (st : db F) (q : query F) (row : list F).

Lemma StronglySorted_sublist {A} (Rel : relation A) (l1 l2 : list A) :
  l1 `sublist_of` l2 → StronglySorted Rel l2 → StronglySorted Rel l1.
Proof.
  induction 1 as [|x l1 l2 Hsub IH|x l1 l2 Hsub IH]; [done|..];
    rewrite !StronglySorted_cons; intros [Hx Hl2].
  - split; [|by apply IH]. rewrite Forall_forall in *.
    intros y Hy. apply Hx. by eapply elem_of_sublist.
  - by apply IH.
Qed.

(** The scored entries the engine ranks for one query row. *)
Lemma hits_of_row_sublist st k row :
  hits_of_row st k row `sublist_of`
    merge_sort Faiss.score_desc
      ((λ e, (Faiss.inner_product row e.2, e.1)) <$> Faiss.entries (index st)).
Proof.
  unfold hits_of_row, Faiss.knn.
  set (scored := _ <$> Faiss.entries (index st)).
  set (n := Z.to_nat _).
  assert (length (merge_sort Faiss.score_desc scored) = Faiss.ntotal (index st)) as Hlen.
  { rewrite (Permutation_length (merge_sort_Permutation _ scored)).
    unfold scored. by rewrite length_fmap. }
  rewrite length_take, Hlen.
  replace (n - n `min` Faiss.ntotal (index st)) with 0 by (unfold n; lia).
  simpl replicate. rewrite app_nil_r.
  etrans; [apply sublist_filter|apply sublist_take].
Qed.

Lemma hits_of_row_length st k row :
  length (hits_of_row st k row) ≤ Z.to_nat k
  ∧ length (hits_of_row st k row) ≤ index_size st.
Proof.
  unfold hits_of_row, Faiss.knn, index_size. cbv zeta.
  split; (etrans; [apply length_filter|]);
    rewrite length_app, length_replicate, length_take; lia.
Qed.

(** On a non-empty index the answer to a well-formed query is decided by
    its first row alone. *)
Lemma search_vectors_nonempty q (top_k : Z) st :
  well_formed q = true →
  index_size st ≠ 0 →
  search_vectors q top_k st = Ok (first_query_hits q top_k st).
Proof.
  intros Hwf Hne. unfold search_vectors, first_query_hits.
  rewrite (normalize_query_well_formed q Hwf). simpl.
  apply Nat.eqb_neq in Hne. unfold index_size in Hne. rewrite Hne.
  unfold Faiss.search.
  destruct (negb (query_cols q =? _)); [done|].
  destruct (negb (0 <? _)%Z); [done|].
  destruct (query_rows q) as [|row rows]; [done|]. csimpl.
  unfold hits_of_row. by rewrite zip_fst_snd.
Qed.

Context `{!ScalarOrder F}.

#[local] Instance score_desc_total : Total (@Faiss.score_desc F _).
Proof. intros a b. unfold Faiss.score_desc. destruct (s_leb_total b.1 a.1); auto. Qed.

#[local] Instance score_desc_trans : Transitive (@Faiss.score_desc F _).
Proof. intros a b c Hab Hbc. unfold Faiss.score_desc in *. by eapply s_leb_trans. Qed.

Lemma hits_of_row_sorted st k row :
  StronglySorted Faiss.score_desc (hits_of_row st k row).
Proof.
  eapply StronglySorted_sublist; [apply hits_of_row_sublist|].
  apply StronglySorted_merge_sort; apply _.
Qed.


End Ranking.



(** In [float32] too the all-zero row comes back from the normalisation
    as it went in. *)
Example normalize_zero_row_binary32 :
  normalize_row (replicate VECTOR_DIM Binary32.zero) = replicate VECTOR_DIM Binary32.zero.
Proof. vm_compute. reflexivity. Qed.

(** * Further facts about [db.py] *)

(** ** Reading table [chunks] *)

#[local] Instance by_vector_id_total : Total by_vector_id.
Proof. intros a b. unfold by_vector_id. lia. Qed.

#[local] Instance by_vector_id_trans : Transitive by_vector_id.
Proof. intros a b c. unfold by_vector_id. lia. Qed.

Section ChunkReads.
Context {F : Type} `{!Scalar F}.
Implicit Types (st : db F) (rid : string).

Lemma sorted_le_NoDup_lt {A} (l : list (Z * A)) :
  StronglySorted (λ a b, (a.1 ≤ b.1)%Z) l → NoDup l.*1 →
  StronglySorted (λ a b, (a.1 < b.1)%Z) l.
Proof.
  induction 1 as [|x l Hl IH Hx]; csimpl; [constructor|].
  intros [Hfresh Hnd]%NoDup_cons. constructor; [by apply IH|].
  rewrite Forall_forall in *. intros y Hy.
  assert (x.1 ≠ y.1) by (intros Heq; apply Hfresh; rewrite Heq; by apply list_elem_of_fmap_2).
  specialize (Hx y Hy). simpl in Hx. lia.
Qed.

Lemma sorted_lt_keys_NoDup {A} (l : list (Z * A)) :
  StronglySorted (λ a b, (a.1 < b.1)%Z) l → NoDup l.
Proof.
  induction 1 as [|x l Hl IH Hx]; constructor; [|done].
  intros Hin. rewrite Forall_forall in Hx. apply Hx in Hin. lia.
Qed.

(** Two listings by strictly increasing key with the same elements are the
    same list. *)
Lemma sorted_lt_keys_unique {A} (l1 l2 : list (Z * A)) :
  StronglySorted (λ a b, (a.1 < b.1)%Z) l1 →
  StronglySorted (λ a b, (a.1 < b.1)%Z) l2 →
  (∀ x, x ∈ l1 ↔ x ∈ l2) → l1 = l2.
Proof.
  intros Hl1 Hl2 Hsame.
  apply (StronglySorted_unique_strong (λ a b, (a.1 < b.1)%Z)); [|done|done|].
  - intros x1 x2 _ _ ? ?. lia.
  - apply NoDup_Permutation; [by apply sorted_lt_keys_NoDup..|done].
Qed.

Lemma get_chunks_elem rid st k text :
  (k, text) ∈ get_chunks_for_resume rid st ↔ chunks st !! k = Some (mkChunk rid text).
Proof.
  unfold get_chunks_for_resume. rewrite list_elem_of_fmap. split.
  - intros ([k' [rid' text']] & [= -> ->] & Hin).
    rewrite merge_sort_Permutation in Hin.
    apply elem_of_map_to_list, map_lookup_filter_Some in Hin as [Hrow Hrid].
    simpl in Hrid. by subst rid'.
  - intros Hrow. exists (k, mkChunk rid text). split; [done|].
    rewrite merge_sort_Permutation.
    by apply elem_of_map_to_list, map_lookup_filter_Some.
Qed.

Lemma get_chunks_sorted rid st :
  StronglySorted (λ a b, (a.1 < b.1)%Z) (get_chunks_for_resume rid st).
Proof.
  unfold get_chunks_for_resume.
  eapply (StronglySorted_fmap _ (λ a b : Z * chunk_row, (a.1 < b.1)%Z)); [done|].
  apply sorted_le_NoDup_lt.
  - apply (StronglySorted_merge_sort by_vector_id).
  - rewrite merge_sort_Permutation. apply NoDup_fst_map_to_list.
Qed.

(** X1. [get_chunks_for_resume] returns exactly the rows of table [chunks]
    owned by the resume, as (vector_id, text), by strictly increasing
    vector_id; so no row is listed twice. *)
Theorem get_chunks_lists_owned_rows rid st :
  (∀ k text, (k, text) ∈ get_chunks_for_resume rid st
             ↔ chunks st !! k = Some (mkChunk rid text))
  ∧ StronglySorted (λ a b, (a.1 < b.1)%Z) (get_chunks_for_resume rid st)
  ∧ NoDup (get_chunks_for_resume rid st).*1.
Proof.
  split; [intros; apply get_chunks_elem|]. split; [apply get_chunks_sorted|].
  unfold get_chunks_for_resume. rewrite <- list_fmap_compose.
  set (sorted := merge_sort by_vector_id _).
  replace ((fst ∘ (λ kv : Z * chunk_row, (kv.1, chunk_text kv.2))) <$> sorted)
    with (sorted.*1) by (by apply list_fmap_ext).
  unfold sorted. rewrite merge_sort_Permutation. apply NoDup_fst_map_to_list.
Qed.

End ChunkReads.

(** ** [delete_resume] *)

Section DeleteFacts.
Context {F : Type} `{!Scalar F}.
Implicit Types (st : db F) (rid : string).

Lemma get_all_resume_ids_elem rid st :
  rid ∈ get_all_resume_ids st ↔ is_Some (resumes st !! rid).
Proof.
  unfold get_all_resume_ids. rewrite list_elem_of_fmap. split.
  - intros ([rid' row] & -> & Hin%elem_of_map_to_list). eauto.
  - intros [row Hrow]. exists (rid, row). by rewrite elem_of_map_to_list.
Qed.

Lemma get_chunks_nil rid st :
  (∀ k row, chunks st !! k = Some row → chunk_resume_id row ≠ rid) →
  get_chunks_for_resume rid st = [].
Proof.
  intros Hnone. unfold get_chunks_for_resume.
  replace (filter _ (chunks st)) with (∅ : gmap Z chunk_row); [done|].
  symmetry. apply map_empty_filter_2. intros k row Hrow Hrid.
  by eapply Hnone.
Qed.

(** Equal tables of chunks are read alike. *)
Lemma get_chunks_ext rid st st' :
  (∀ k row, chunk_resume_id row = rid →
            (chunks st' !! k = Some row ↔ chunks st !! k = Some row)) →
  get_chunks_for_resume rid st' = get_chunks_for_resume rid st.
Proof.
  intros Hsame. apply sorted_lt_keys_unique; [apply get_chunks_sorted..|].
  intros [k text]. rewrite !get_chunks_elem. by apply Hsame.
Qed.

(** X2. [delete_resume] always returns; afterwards the resume has no row
    ([fetch_meta] gives [None], the id is not listed), owns no chunk, and
    the cursor is where it was. *)
Theorem delete_removes_document rid st :
  let st' := exec (delete_resume rid) st in
  outcome (delete_resume rid) st = Ok tt
  ∧ fetch_meta rid st' = None
  ∧ (rid ∉ get_all_resume_ids st')
  ∧ get_chunks_for_resume rid st' = []
  ∧ (∀ k row, chunks st' !! k = Some row → chunk_resume_id row ≠ rid)
  ∧ _next_id st' = _next_id st.
Proof.
  unfold outcome, exec. rewrite delete_resume_unfold. simpl.
  assert (∀ k row,
    filter (λ kv : Z * chunk_row, chunk_resume_id kv.2 ≠ rid) (chunks st) !! k = Some row →
    chunk_resume_id row ≠ rid) as Hgone.
  { intros k row Hrow. by apply map_lookup_filter_Some in Hrow as [_ ?]. }
  repeat split; [| |by apply get_chunks_nil|done].
  - unfold fetch_meta. simpl. by rewrite lookup_delete_eq.
  - rewrite get_all_resume_ids_elem. simpl. rewrite lookup_delete_eq. by intros [? ?].
Qed.

(** X3. [delete_resume] leaves every other resume as it was: its row, its
    chunks, and each chunk row not owned by the deleted resume. *)
Theorem delete_keeps_other_documents rid rid' st :
  rid' ≠ rid →
  let st' := exec (delete_resume rid) st in
  fetch_meta rid' st' = fetch_meta rid' st
  ∧ (rid' ∈ get_all_resume_ids st' ↔ rid' ∈ get_all_resume_ids st)
  ∧ get_chunks_for_resume rid' st' = get_chunks_for_resume rid' st
  ∧ (∀ k row, chunks st !! k = Some row → chunk_resume_id row ≠ rid →
              chunks st' !! k = Some row).
Proof.
  intros Hne. unfold exec. rewrite delete_resume_unfold. simpl.
  repeat split.
  - unfold fetch_meta. simpl. by rewrite lookup_delete_ne.
  - rewrite !get_all_resume_ids_elem. simpl. by rewrite lookup_delete_ne.
  - rewrite !get_all_resume_ids_elem. simpl. by rewrite lookup_delete_ne.
  - apply get_chunks_ext. intros k row Hrow. simpl.
    rewrite map_lookup_filter_Some. simpl. split; [by intros [? _]|].
    intros ?. split; [done|congruence].
  - intros k row Hrow Hrid. by apply map_lookup_filter_Some.
Qed.

(** X4. Deleting a resume that has neither a row nor a chunk changes
    nothing and raises nothing. *)
Theorem delete_unknown_is_noop rid st :
  resumes st !! rid = None →
  (∀ k row, chunks st !! k = Some row → chunk_resume_id row ≠ rid) →
  delete_resume rid st = (Ok tt, st).
Proof.
  intros Hrow Hchunks. rewrite delete_resume_unfold. simpl.
  replace (filter (λ kv : Z * chunk_row, chunk_resume_id kv.2 = rid) (chunks st))
    with (∅ : gmap Z chunk_row).
  2:{ symmetry. apply map_empty_filter_2. intros k row ? ?. by eapply Hchunks. }
  rewrite map_to_list_empty. simpl.
  rewrite delete_id by done.
  rewrite map_filter_id by (intros k row ?; by eapply Hchunks).
  by destruct st.
Qed.

(** X26. Deleting a resume a second time changes nothing more. *)
Theorem delete_twice rid st :
  delete_resume rid (exec (delete_resume rid) st)
  = (Ok tt, exec (delete_resume rid) st).
Proof.
  unfold exec. rewrite (delete_resume_unfold rid st). simpl.
  rewrite delete_resume_unfold. simpl.
  replace (filter (λ kv : Z * chunk_row, chunk_resume_id kv.2 = rid)
             (filter (λ kv : Z * chunk_row, chunk_resume_id kv.2 ≠ rid) (chunks st)))
    with (∅ : gmap Z chunk_row).
  2:{ symmetry. apply map_empty_filter_2. intros k row Hrow Hrid.
      by apply map_lookup_filter_Some in Hrow as [_ ?]. }
  rewrite map_to_list_empty. simpl. f_equal. f_equal.
  - apply delete_id, lookup_delete_eq.
  - apply map_filter_id. intros k row Hrow.
    by apply map_lookup_filter_Some in Hrow as [_ ?].
Qed.

End DeleteFacts.

(** X4 on a store holding [D1] only: deleting [D2]. *)
Lemma delete_unknown_is_noop_witness :
  delete_resume "D2" D1_store = (Ok tt, D1_store).
Proof.
  apply delete_unknown_is_noop.
  - vm_compute. reflexivity.
  - intros k row Hrow.
    assert (chunks D1_store
            = <[1%Z := mkChunk "D1" "b"]> (<[0%Z := mkChunk "D1" "a"]> ∅)) as Heq
      by (vm_compute; reflexivity).
    rewrite Heq in Hrow.
    apply lookup_insert_Some in Hrow as [[_ <-]|[_ Hrow]]; [done|].
    apply lookup_insert_Some in Hrow as [[_ <-]|[_ Hrow]]; [done|].
    by rewrite lookup_empty in Hrow.
Defined.

(** X3 on a store holding [D1] and [D2]: deleting [D1] keeps [D2]. *)
Lemma delete_keeps_other_documents_witness :
  get_chunks_for_resume "D2" (exec (delete_resume "D1") D12_store)
  = get_chunks_for_resume "D2" D12_store.
Proof.
  refine (proj1 (proj2 (proj2 (delete_keeps_other_documents "D1" "D2" D12_store _)))).
  discriminate.
Defined.

(** ** [insert_resume]: what a call leaves behind *)

Section InsertEffects.
Context {F : Type} `{!Scalar F}.
Implicit Types (st : db F) (meta : Meta) (rid : string).

Lemma sorted_keys {A} (l : list (Z * A)) :
  StronglySorted Z.lt l.*1 → StronglySorted (λ a b, (a.1 < b.1)%Z) l.
Proof.
  induction l as [|x l IH]; csimpl; [constructor|].
  intros [Hx Hl]%StronglySorted_cons. constructor; [by apply IH|].
  apply Forall_forall. intros y Hy. rewrite Forall_forall in Hx.
  apply Hx. by apply list_elem_of_fmap_2.
Qed.

Lemma zip_arange_keys (next : Z) (chunks_ : list string) :
  (zip (Np.arange next (next + Z.of_nat (length chunks_))) chunks_).*1
  = Np.arange next (next + Z.of_nat (length chunks_)).
Proof. apply fst_zip. by rewrite arange_length. Qed.

(** The rows of one insert, looked up by identifier. *)
Lemma chunk_rows_lookup meta next chunks_ k row :
  (list_to_map (chunk_rows meta next chunks_) : gmap Z chunk_row) !! k = Some row ↔
  ∃ text, row = mkChunk (resume_id meta) text
          ∧ (k, text) ∈ zip (Np.arange next (next + Z.of_nat (length chunks_))) chunks_.
Proof.
  rewrite <- elem_of_list_to_map by (rewrite chunk_rows_ids; apply NoDup_seqZ).
  unfold chunk_rows. rewrite list_elem_of_fmap. split.
  - intros ([k' text] & [= -> ->] & Hin). eauto.
  - intros (text & -> & Hin). by exists (k, text).
Qed.

Lemma chunk_rows_lookup_None meta next chunks_ k :
  (list_to_map (chunk_rows meta next chunks_) : gmap Z chunk_row) !! k = None ↔
  ¬ (next ≤ k < next + Z.of_nat (length chunks_))%Z.
Proof. by rewrite <- not_elem_of_list_to_map, chunk_rows_ids, arange_elem. Qed.

Lemma insert_resume_Ok_chunks meta chunks_ embeddings st st' :
  cursor_above_chunks st →
  insert_resume meta chunks_ embeddings st = (Ok tt, st') →
  chunks st' = list_to_map (chunk_rows meta (_next_id st) chunks_) ∪ chunks st.
Proof.
  intros Hinv Hins.
  by destruct (insert_resume_cases _ _ _ _ _ _ Hinv Hins) as [([e [=]] & _)|[_ ?]].
Qed.

(** A chunk row after a returning insert: an old row, or one of the new. *)
Lemma insert_resume_Ok_lookup meta chunks_ embeddings st st' k row :
  cursor_above_chunks st →
  insert_resume meta chunks_ embeddings st = (Ok tt, st') →
  chunks st' !! k = Some row ↔
  chunks st !! k = Some row
  ∨ ∃ text, row = mkChunk (resume_id meta) text
            ∧ (k, text) ∈ zip (Np.arange (_next_id st)
                                 (_next_id st + Z.of_nat (length chunks_))) chunks_.
Proof.
  intros Hinv Hins. rewrite (insert_resume_Ok_chunks _ _ _ _ _ Hinv Hins).
  rewrite lookup_union_Some_raw, chunk_rows_lookup, chunk_rows_lookup_None.
  split.
  - intros [?|[_ ?]]; auto.
  - intros [Hold|?]; [|by left]. right. split; [|done].
    assert (k < _next_id st)%Z by (apply Hinv; eauto). lia.
Qed.

(** X5. A returning insert appends its chunks to those the resume already
    has: [get_chunks_for_resume] gives the old listing followed by the new
    texts under the identifiers [_next_id, _next_id + 1, ...], in order; the
    listings of other resumes do not change. *)
Theorem insert_appends_chunks meta chunks_ embeddings st st' :
  cursor_above_chunks st →
  insert_resume meta chunks_ embeddings st = (Ok tt, st') →
  get_chunks_for_resume (resume_id meta) st'
  = get_chunks_for_resume (resume_id meta) st
    ++ zip (Np.arange (_next_id st) (_next_id st + Z.of_nat (length chunks_))) chunks_
  ∧ ∀ rid, rid ≠ resume_id meta →
           get_chunks_for_resume rid st' = get_chunks_for_resume rid st.
Proof.
  intros Hinv Hins. split.
  - apply sorted_lt_keys_unique; [apply get_chunks_sorted| |].
    + apply StronglySorted_app_2; [|apply get_chunks_sorted|].
      * intros [k text] [k' text'] Hold Hnew. simpl.
        apply get_chunks_elem in Hold.
        assert (k < _next_id st)%Z by (apply Hinv; eauto).
        apply (list_elem_of_fmap_2 fst) in Hnew.
        rewrite zip_arange_keys, arange_elem in Hnew. simpl in Hnew. lia.
      * apply sorted_keys. rewrite zip_arange_keys. apply seqZ_sorted.
    + intros [k text]. rewrite elem_of_app, !get_chunks_elem.
      rewrite (insert_resume_Ok_lookup _ _ _ _ _ _ _ Hinv Hins).
      split; (intros [?|Hnew]; [by left|right]).
      * by destruct Hnew as (text' & [= ->] & ?).
      * eauto.
  - intros rid Hrid. apply get_chunks_ext. intros k row Hrow.
    rewrite (insert_resume_Ok_lookup _ _ _ _ _ _ _ Hinv Hins).
    split; [|by left]. intros [?|(text & -> & _)]; [done|]. by simpl in Hrow.
Qed.

(** X6. After a returning insert [vector_to_resume] maps each identifier
    issued to the inserted resume, answers as before for the identifiers
    that had a chunk row, and gives the empty string for any other. *)
Theorem vector_to_resume_after_insert meta chunks_ embeddings st st' :
  cursor_above_chunks st →
  insert_resume meta chunks_ embeddings st = (Ok tt, st') →
  ∀ k,
    ((_next_id st ≤ k < _next_id st + Z.of_nat (length chunks_))%Z →
       vector_to_resume k st' = resume_id meta)
    ∧ (is_Some (chunks st !! k) → vector_to_resume k st' = vector_to_resume k st)
    ∧ (¬ (_next_id st ≤ k < _next_id st + Z.of_nat (length chunks_))%Z →
       chunks st !! k = None → vector_to_resume k st' = "").
Proof.
  intros Hinv Hins k. unfold vector_to_resume.
  rewrite (insert_resume_Ok_chunks _ _ _ _ _ Hinv Hins). repeat split.
  - intros Hk.
    destruct ((list_to_map (chunk_rows meta (_next_id st) chunks_) : gmap Z chunk_row) !! k)
      as [row|] eqn:Hrow.
    + rewrite (lookup_union_Some_l _ _ _ _ Hrow).
      by apply chunk_rows_lookup in Hrow as (text & -> & _).
    + by apply chunk_rows_lookup_None in Hrow.
  - intros [row Hrow]. rewrite lookup_union_r, Hrow; [done|].
    apply chunk_rows_lookup_None.
    assert (k < _next_id st)%Z by (apply Hinv; eauto). lia.
  - intros Hk Hnone. by rewrite lookup_union_r, Hnone by by apply chunk_rows_lookup_None.
Qed.

Lemma insert_resume_resumes meta chunks_ embeddings st :
  length chunks_ = length embeddings →
  resumes (exec (insert_resume meta chunks_ embeddings) st)
  = upsert_resume meta (resumes st).
Proof.
  intros Hlen. unfold exec. rewrite insert_resume_unfold.
  rewrite Hlen, Nat.eqb_refl. simpl.
  destruct (_l2_normalize _) as [x|e]; [|done].
  destruct (Faiss.add_with_ids _ _ _) as [idx'|e]; [|done].
  destruct (executemany _ _ _) as [[[]|e] st3] eqn:Hrows;
    apply executemany_frame in Hrows as (_ & Hres & _); simpl; by rewrite Hres.
Qed.

(** X7. Once the arity check has passed, whether the call then returns or
    raises, the resume's row holds the metadata given, with version 1 for a
    new resume and the old version plus 1 otherwise; [fetch_meta] returns
    that name, those skills and years, and the id is listed.  Rows of other
    resumes are not touched. *)
Theorem insert_upserts_metadata meta chunks_ embeddings st :
  length chunks_ = length embeddings →
  let st' := exec (insert_resume meta chunks_ embeddings) st in
  resumes st' !! resume_id meta
  = Some (mkResume (name meta) (email meta) (skills meta) (years_experience meta)
            (from_option (λ old, row_version old + 1)%Z 1%Z (resumes st !! resume_id meta)))
  ∧ fetch_meta (resume_id meta) st'
    = Some (<["name" := PyStr (name meta)]>
           (<["skills" := PyStrList (skills meta)]>
           (<["years_experience" := PyInt (years_experience meta)]> ∅)))
  ∧ resume_id meta ∈ get_all_resume_ids st'
  ∧ ∀ rid, rid ≠ resume_id meta →
           resumes st' !! rid = resumes st !! rid ∧ fetch_meta rid st' = fetch_meta rid st.
Proof.
  intros Hlen st'.
  pose proof (insert_resume_resumes meta chunks_ embeddings st Hlen) as Hres.
  fold st' in Hres.
  assert (resumes st' !! resume_id meta
          = Some (mkResume (name meta) (email meta) (skills meta) (years_experience meta)
              (from_option (λ old, row_version old + 1)%Z 1%Z (resumes st !! resume_id meta))))
    as Hrow by (rewrite Hres; apply upsert_resume_lookup).
  repeat split.
  - done.
  - unfold fetch_meta. by rewrite Hrow.
  - apply get_all_resume_ids_elem. rewrite Hrow. eauto.
  - rewrite Hres. unfold upsert_resume. by rewrite lookup_insert_ne.
  - unfold fetch_meta. rewrite Hres. unfold upsert_resume. by rewrite lookup_insert_ne.
Qed.

Lemma insert_resume_Ok_ids meta chunks_ embeddings st st' :
  insert_resume meta chunks_ embeddings st = (Ok tt, st') →
  index_ids st' = index_ids st
      ++ Np.arange (_next_id st) (_next_id st + Z.of_nat (length chunks_)).
Proof.
  intros (_ & rows & _ & Hn & Hidx & _)%insert_resume_Ok_inv.
  unfold index_ids. rewrite Hidx. simpl.
  by rewrite fmap_app, fst_zip by (rewrite arange_length; lia).
Qed.

(** X8. A returning insert adds one index entry per chunk, under the
    identifiers [_next_id, ...], after the entries already there; the
    dimension of the index stays. *)
Theorem insert_adds_to_index meta chunks_ embeddings st st' :
  insert_resume meta chunks_ embeddings st = (Ok tt, st') →
  index_size st' = index_size st + length chunks_
  ∧ index_ids st' = index_ids st
      ++ Np.arange (_next_id st) (_next_id st + Z.of_nat (length chunks_))
  ∧ Faiss.d (index st') = Faiss.d (index st).
Proof.
  intros Hins. pose proof (insert_resume_Ok_ids _ _ _ _ _ Hins) as Hids.
  apply insert_resume_Ok_inv in Hins as (_ & rows & _ & Hn & Hidx & _).
  split; [|split; [done|by rewrite Hidx]].
  unfold index_size, Faiss.ntotal. rewrite Hidx. simpl.
  rewrite length_app, length_zip, arange_length, Hn. lia.
Qed.

End InsertEffects.

Lemma D1_store_cursor : cursor_above_chunks D1_store.
Proof.
  apply (step_cursor (OpInsert (doc "D1") ["a"; "b"] [basis 0; basis 1]) fresh fresh_cursor).
Qed.

Lemma D12_store_insert :
  insert_resume (doc "D2") ["c"; "d"; "e"] [basis 2; basis 3; basis 4] D1_store
  = (Ok tt, D12_store).
Proof. vm_compute. reflexivity. Qed.

(** X5 on the store holding [D1]: a second insert under the same id. *)
Lemma insert_appends_chunks_witness :
  get_chunks_for_resume "D1" (exec (insert_resume (doc "D1") ["c"] [basis 2]) D1_store)
  = get_chunks_for_resume "D1" D1_store ++ [(2%Z, "c")].
Proof.
  refine (proj1 (insert_appends_chunks (doc "D1") ["c"] [basis 2] D1_store _
                   D1_store_cursor _)).
  vm_compute. reflexivity.
Defined.

(** X6 for identifier 3, issued to [D2]. *)
Lemma vector_to_resume_after_insert_witness :
  vector_to_resume 3 D12_store = "D2".
Proof.
  refine (proj1 (vector_to_resume_after_insert _ _ _ _ _ D1_store_cursor
                   D12_store_insert 3) _).
  vm_compute. split; [discriminate|reflexivity].
Defined.

(** X7 for a resume inserted with the wrong dimension: the call raises,
    the row is there. *)
Lemma insert_upserts_metadata_witness :
  outcome (insert_resume (doc "D9") ["x"] [[Binary32.one]]) (fresh : db Binary32.t)
  = Raise AssertionError
  ∧ "D9" ∈ get_all_resume_ids
             (exec (insert_resume (doc "D9") ["x"] [[Binary32.one]]) (fresh : db Binary32.t)).
Proof.
  split; [vm_compute; reflexivity|].
  refine (proj1 (proj2 (proj2
    (insert_upserts_metadata (doc "D9") ["x"] [[Binary32.one]] fresh _)))).
  reflexivity.
Defined.

(** X8 for the insert of [D2] after [D1]. *)
Lemma insert_adds_to_index_witness :
  index_size D12_store = index_size D1_store + 3.
Proof. exact (proj1 (insert_adds_to_index _ _ _ _ _ D12_store_insert)). Defined.

Section InsertOutcome.
Context {F : Type} `{!Scalar F}.
Implicit Types (st : db F) (meta : Meta).

Lemma l2_normalize_Ok_rectangular (r : list F) rs x :
  _l2_normalize (Np.PyList (r :: rs)) = Ok x →
  Forall (λ r', length r' = length r) rs.
Proof.
  destruct (forallb (λ r', length r' =? length r) rs) eqn:Hrect.
  - intros _. apply Forall_forall. intros r' Hr'%list_elem_of_In.
    rewrite forallb_forall in Hrect. by apply Nat.eqb_eq, Hrect.
  - by rewrite l2_normalize_ragged.
Qed.



End InsertOutcome.



(** ** The index and table [chunks] agree *)

Section Agreement.
Context {F : Type} `{!Scalar F}.
Implicit Types (st : db F) (meta : Meta) (rid : string).

Lemma remove_ids_ids (idx : Faiss.index F) (ids : list Z) :
  (Faiss.entries (Faiss.remove_ids idx ids)).*1
  = filter (λ k, k ∉ ids) (Faiss.entries idx).*1.
Proof.
  unfold Faiss.remove_ids. simpl.
  induction (Faiss.entries idx) as [|e l IH]; [done|]. csimpl.
  rewrite !filter_cons. simpl. destruct (decide (e.1 ∉ ids)); csimpl; by rewrite IH.
Qed.

(** The identifiers [delete_resume] takes out of the index. *)
Lemma delete_resume_index_ids rid st :
  index_ids (exec (delete_resume rid) st)
  = filter (λ k, chunk_resume_id <$> chunks st !! k ≠ Some rid) (index_ids st).
Proof.
  unfold exec, index_ids. rewrite delete_resume_unfold. simpl.
  set (owned := (map_to_list (filter (λ kv : Z * chunk_row, chunk_resume_id kv.2 = rid)
                                (chunks st))).*1).
  assert (∀ k, k ∈ owned ↔ ∃ row, chunks st !! k = Some row ∧ chunk_resume_id row = rid)
    as Howned.
  { intros k. unfold owned. rewrite list_elem_of_fmap. split.
    - intros ([k' row] & -> & Hin). exists row.
      by apply elem_of_map_to_list, map_lookup_filter_Some in Hin.
    - intros (row & Hrow & Hrid). exists (k, row). split; [done|].
      by apply elem_of_map_to_list, map_lookup_filter_Some. }
  transitivity (filter (λ k, k ∉ owned) (Faiss.entries (index st)).*1).
  - destruct (bool_decide (owned = [])) eqn:Hnil; [|apply remove_ids_ids].
    apply bool_decide_eq_true in Hnil. rewrite Hnil.
    induction (Faiss.entries (index st)).*1 as [|k l IH]; [done|].
    rewrite filter_cons_True by apply not_elem_of_nil. by rewrite <- IH.
  - apply list_filter_iff. intros k. rewrite Howned. split.
    + intros Hnot Hrid. apply Hnot.
      destruct (chunks st !! k) as [row|]; [|done]. injection Hrid as Hrid. eauto.
    + intros Hnot (row & Hrow & Hrid). apply Hnot. by rewrite Hrow, <- Hrid.
Qed.

Lemma step_agreement (o : op F) st :
  cursor_above_chunks st → index_matches_chunks st →
  index_matches_chunks (step o st).
Proof.
  intros Hinv [Hnd Hsame]. destruct o as [meta chunks_ embeddings|rid].
  - unfold step, exec.
    destruct (insert_resume meta chunks_ embeddings st) as [r st'] eqn:Hins. simpl.
    destruct (insert_resume_cases _ _ _ _ _ _ Hinv Hins)
      as [(_ & Hidx & Hch & _)|[-> Hch]].
    + unfold index_matches_chunks, index_ids. by rewrite Hidx, Hch.
    + pose proof (insert_resume_Ok_ids _ _ _ _ _ Hins) as Hids.
      unfold index_matches_chunks. rewrite Hids, Hch. split.
      * apply NoDup_app. split; [done|]. split; [|apply NoDup_seqZ].
        intros k Hold Hnew. apply Hsame, Hinv in Hold.
        apply arange_elem in Hnew. lia.
      * intros k. rewrite elem_of_app, lookup_union_is_Some, Hsame, arange_elem.
        rewrite <- (not_eq_None_Some (list_to_map _ !! k)), chunk_rows_lookup_None.
        destruct (decide (_next_id st ≤ k < _next_id st + Z.of_nat (length chunks_))%Z);
          tauto.
  - unfold index_matches_chunks, step. rewrite delete_resume_index_ids. split.
    + by apply NoDup_filter.
    + intros k. rewrite list_elem_of_filter, Hsame.
      unfold exec. rewrite delete_resume_unfold. simpl. split.
      * intros [Hkeep [row Hrow]]. exists row.
        apply map_lookup_filter_Some. split; [done|].
        intros Hrid. apply Hkeep. by rewrite Hrow, <- Hrid.
      * intros [row [Hrow Hrid]%map_lookup_filter_Some]. split; [|eauto].
        rewrite Hrow. simpl in *. congruence.
Qed.

Lemma run_state_cons (o : op F) ops st :
  (run (o :: ops) st).2 = (run ops (step o st)).2.
Proof. simpl. by destruct (run ops (step o st)). Qed.

Lemma agreement_size st :
  index_matches_chunks st → index_size st = size (chunks st).
Proof.
  intros [Hnd Hsame]. unfold index_size, Faiss.ntotal.
  rewrite <- (length_fmap fst), <- length_map_to_list, <- (length_fmap fst (map_to_list _)).
  apply Permutation_length, NoDup_Permutation; [done|apply NoDup_fst_map_to_list|].
  intros k. fold (index_ids st). rewrite Hsame, list_elem_of_fmap. split.
  - intros [row Hrow]. exists (k, row). by rewrite elem_of_map_to_list.
  - intros ([k' row] & -> & Hin%elem_of_map_to_list). eauto.
Qed.


End Agreement.

Lemma fresh_agreement {F : Type} `{!Scalar F} : index_matches_chunks (fresh : db F).
Proof.
  split; [constructor|]. intros k. unfold index_ids. simpl. rewrite lookup_empty.
  split; [by intros ?%elem_of_nil|by intros [? ?]].
Qed.


Section DeleteComposes.
Context {F : Type} `{!Scalar F}.
Implicit Types (st : db F) (meta : Meta) (rid : string).

Lemma get_chunks_length rid st :
  length (get_chunks_for_resume rid st)
  = size (filter (λ kv : Z * chunk_row, chunk_resume_id kv.2 = rid) (chunks st)).
Proof.
  unfold get_chunks_for_resume.
  by rewrite length_fmap, (Permutation_length (merge_sort_Permutation _ _)),
    length_map_to_list.
Qed.

(** X12. When the index and table [chunks] hold the same identifiers,
    [delete_resume] takes out of the index exactly as many vectors as the
    resume had chunks, and index and table still agree afterwards. *)
Theorem delete_removes_vectors rid st :
  index_matches_chunks st →
  let st' := exec (delete_resume rid) st in
  index_size st = index_size st' + length (get_chunks_for_resume rid st)
  ∧ index_matches_chunks st'.
Proof.
  intros Hagree st'.
  assert (index_matches_chunks st') as Hagree'.
  { destruct Hagree as [Hnd Hsame]. unfold st', index_matches_chunks.
    rewrite delete_resume_index_ids. split; [by apply NoDup_filter|].
    intros k. rewrite list_elem_of_filter, Hsame.
    unfold exec. rewrite delete_resume_unfold. simpl. split.
    - intros [Hkeep [row Hrow]]. exists row.
      apply map_lookup_filter_Some. split; [done|].
      intros Hrid. apply Hkeep. by rewrite Hrow, <- Hrid.
    - intros [row [Hrow Hrid]%map_lookup_filter_Some]. split; [|eauto].
      rewrite Hrow. simpl in *. congruence. }
  split; [|done].
  rewrite (agreement_size st Hagree), (agreement_size st' Hagree'), get_chunks_length.
  unfold st', exec. rewrite delete_resume_unfold. simpl.
  rewrite <- (map_filter_union_complement
                (λ kv : Z * chunk_row, chunk_resume_id kv.2 = rid) (chunks st)) at 1.
  rewrite map_size_disj_union by apply map_disjoint_filter_complement. lia.
Qed.

Lemma filter_keep_all {A} (P : A → Prop) `{!∀ x, Decision (P x)} (l : list A) :
  Forall P l → filter P l = l.
Proof.
  induction 1 as [|x l Hx Hl IH]; [done|]. by rewrite filter_cons_True, IH.
Qed.

Lemma filter_drop_all {A} (P : A → Prop) `{!∀ x, Decision (P x)} (l : list A) :
  Forall (λ x, ¬ P x) l → filter P l = [].
Proof.
  induction 1 as [|x l Hx Hl IH]; [done|]. by rewrite filter_cons_False.
Qed.


End DeleteComposes.

Lemma D1_store_agreement : index_matches_chunks D1_store.
Proof.
  apply (step_agreement (OpInsert (doc "D1") ["a"; "b"] [basis 0; basis 1]) fresh
           fresh_cursor fresh_agreement).
Qed.

Lemma D12_store_agreement : index_matches_chunks D12_store.
Proof.
  apply (step_agreement (OpInsert (doc "D2") ["c"; "d"; "e"] [basis 2; basis 3; basis 4])
           D1_store D1_store_cursor D1_store_agreement).
Qed.

Lemma D1_store_owner k row :
  chunks D1_store !! k = Some row → chunk_resume_id row = "D1".
Proof.
  assert (chunks D1_store
          = <[1%Z := mkChunk "D1" "b"]> (<[0%Z := mkChunk "D1" "a"]> ∅)) as ->
    by (vm_compute; reflexivity).
  intros [[_ <-]|[_ Hrow]]%lookup_insert_Some; [done|].
  apply lookup_insert_Some in Hrow as [[_ <-]|[_ Hrow]]; [done|].
  by rewrite lookup_empty in Hrow.
Qed.

(** X12 on the store holding [D1] and [D2]: deleting [D1]. *)
Lemma delete_removes_vectors_witness :
  index_size D12_store
  = index_size (exec (delete_resume "D1") D12_store)
    + length (get_chunks_for_resume "D1" D12_store).
Proof. exact (proj1 (delete_removes_vectors "D1" D12_store D12_store_agreement)). Defined.


(** ** The cursor a restart would compute *)

Section Restart.
Context {F : Type} `{!Scalar F}.
Implicit Types (st : db F) (meta : Meta) (rid : string).

Lemma sql_max_in (col : list Z) m : sql_max col = Some m → m ∈ col.
Proof.
  destruct col as [|x rest]; [done|]. simpl. intros [= <-].
  induction rest as [|y rest IH]; simpl; [left|].
  destruct (Z.max_spec y (foldr Z.max x rest)) as [[_ ->]|[_ ->]].
  - apply elem_of_cons in IH as [->|?]; [left|by do 2 right].
  - right. left.
Qed.

Lemma chunk_keys_elem st k :
  k ∈ (map_to_list (chunks st)).*1 ↔ is_Some (chunks st !! k).
Proof.
  rewrite list_elem_of_fmap. split.
  - intros ([k' row] & -> & Hin%elem_of_map_to_list). eauto.
  - intros [row Hrow]. exists (k, row). by rewrite elem_of_map_to_list.
Qed.

(** X14. With the cursor above table [chunks] and not negative,
    [_next_free_vector_id] on the current table never exceeds the cursor;
    right after a returning insert of at least one chunk it equals the
    cursor, so a restart at that point resumes the numbering. *)
Theorem restart_cursor meta chunks_ embeddings st st' :
  cursor_above_chunks st →
  (0 ≤ _next_id st)%Z →
  (_next_free_vector_id (chunks st) ≤ _next_id st)%Z
  ∧ (insert_resume meta chunks_ embeddings st = (Ok tt, st') →
     chunks_ ≠ [] →
     _next_free_vector_id (chunks st') = _next_id st').
Proof.
  intros Hinv Hpos. split.
  - unfold _next_free_vector_id.
    destruct (sql_max (map_to_list (chunks st)).*1) as [m|] eqn:Hmax; simpl; [|lia].
    apply sql_max_in, chunk_keys_elem, Hinv in Hmax. lia.
  - intros Hins Hne.
    destruct (step_cursor (OpInsert meta chunks_ embeddings) st Hinv) as (Hinv' & _ & _).
    rewrite (step_insert _ _ _ _ _ _ Hins) in Hinv'.
    pose proof (insert_resume_Ok_chunks _ _ _ _ _ Hinv Hins) as Hch.
    pose proof Hins as (_ & _ & _ & _ & _ & _ & _ & Hnext)%insert_resume_Ok_inv.
    assert (0 < length chunks_) by (destruct chunks_; [done|simpl; lia]).
    assert (is_Some (chunks st' !! (_next_id st' - 1)%Z)) as Hlast.
    { rewrite Hch, lookup_union_is_Some. left.
      apply not_eq_None_Some. rewrite chunk_rows_lookup_None. lia. }
    apply chunk_keys_elem in Hlast.
    destruct (sql_max_ge _ _ Hlast) as (m & Hmax & Hm).
    unfold _next_free_vector_id. rewrite Hmax. simpl.
    apply sql_max_in, chunk_keys_elem, Hinv' in Hmax. lia.
Qed.

(** X15. Deleting the resume that owns every chunk row empties table
    [chunks], so [_next_free_vector_id] on it is 0 whatever the cursor was:
    after a restart the identifiers are issued again from 0. *)
Theorem restart_after_deleting_all rid st :
  (∀ k row, chunks st !! k = Some row → chunk_resume_id row = rid) →
  let st' := exec (delete_resume rid) st in
  chunks st' = ∅
  ∧ _next_id st' = _next_id st
  ∧ _next_free_vector_id (chunks st') = 0%Z.
Proof.
  intros Hsole st'.
  assert (chunks st' = ∅) as Hch.
  { unfold st', exec. rewrite delete_resume_unfold. simpl.
    apply map_empty_filter_2. intros k row Hrow Hrid. apply Hrid. by eapply Hsole. }
  split; [done|]. split.
  - unfold st', exec. by rewrite delete_resume_unfold.
  - by rewrite Hch.
Qed.

End Restart.

(** X14 for the insert of [D2] after [D1]. *)
Lemma restart_cursor_witness :
  _next_free_vector_id (chunks D12_store) = _next_id D12_store.
Proof.
  refine (proj2 (restart_cursor (doc "D2") ["c"; "d"; "e"] [basis 2; basis 3; basis 4]
                   D1_store D12_store D1_store_cursor _) D12_store_insert _).
  - vm_compute. discriminate.
  - discriminate.
Defined.

(** X15 on the store holding [D1] only: the cursor stays 2, a restart would
    start again at 0. *)
Lemma restart_after_deleting_all_witness :
  _next_id (exec (delete_resume "D1") D1_store) = 2%Z
  ∧ _next_free_vector_id (chunks (exec (delete_resume "D1") D1_store)) = 0%Z.
Proof.
  destruct (restart_after_deleting_all "D1" D1_store D1_store_owner) as (_ & Hnext & Hfree).
  split; [exact Hnext|exact Hfree].
Defined.

(** ** More on [search_vectors] *)

Section SearchMore.
Context {F : Type} `{!Scalar F}.
Implicit Types (st : db F) (q : query F) (row : list F).

Lemma hits_of_row_entry st k row hit :
  hit ∈ hits_of_row st k row →
  ∃ v, (hit.2, v) ∈ Faiss.entries (index st) ∧ hit.1 = Faiss.inner_product row v.
Proof.
  intros Hhit. eapply elem_of_sublist in Hhit; [|apply hits_of_row_sublist].
  rewrite merge_sort_Permutation in Hhit.
  apply list_elem_of_fmap in Hhit as ([i v] & -> & Hentry). eauto.
Qed.

Lemma first_query_hits_elem q k st hit :
  hit ∈ first_query_hits q k st →
  ∃ row, head (query_rows q) = Some row ∧ hit ∈ hits_of_row st k (normalize_row row).
Proof.
  unfold first_query_hits.
  destruct (negb (query_cols q =? _)); [by intros ?%elem_of_nil|].
  destruct (negb (0 <? _)%Z); [by intros ?%elem_of_nil|].
  destruct (query_rows q) as [|row rows]; [by intros ?%elem_of_nil|]. eauto.
Qed.

(** With no entry labelled [-1], the hits of a row are the first
    [min(k, ntotal)] entries of the ranking. *)
Lemma hits_of_row_take st k row :
  (-1)%Z ∉ index_ids st →
  hits_of_row st k row
  = take (Z.to_nat (k `min` Z.of_nat (Faiss.ntotal (index st))))
      (merge_sort Faiss.score_desc
         ((λ e, (Faiss.inner_product row e.2, e.1)) <$> Faiss.entries (index st))).
Proof.
  intros Hlabel. unfold hits_of_row, Faiss.knn. cbv zeta.
  set (scored := _ <$> Faiss.entries (index st)).
  set (n := Z.to_nat _).
  assert (length (merge_sort Faiss.score_desc scored) = Faiss.ntotal (index st)) as Hlen.
  { rewrite (Permutation_length (merge_sort_Permutation _ scored)).
    unfold scored. by rewrite length_fmap. }
  rewrite length_take, Hlen.
  replace (n - n `min` Faiss.ntotal (index st)) with 0 by (unfold n; lia).
  simpl replicate. rewrite app_nil_r. apply filter_keep_all.
  apply Forall_forall. intros hit Hhit Heq. apply Hlabel.
  apply subseteq_take in Hhit. rewrite merge_sort_Permutation in Hhit.
  apply list_elem_of_fmap in Hhit as ([i v] & -> & Hentry). simpl in Heq. subst i.
  by apply (list_elem_of_fmap_2 fst) in Hentry.
Qed.


(** X18. When the index and table [chunks] hold the same identifiers, every
    hit returned for a well-formed query has a chunk row, so
    [vector_to_resume] resolves it to the owner recorded in that row. *)
Theorem search_hits_have_chunks q (top_k : Z) st res :
  index_matches_chunks st →
  well_formed q = true →
  search_vectors q top_k st = Ok res →
  Forall (λ hit, ∃ owned : chunk_row, chunks st !! hit.2 = Some owned
                        ∧ vector_to_resume hit.2 st = chunk_resume_id owned) res.
Proof.
  intros [_ Hsame] Hwf Hres.
  destruct (decide (index_size st = 0)) as [Hempty|Hne].
  - unfold search_vectors, index_size in *.
    rewrite (normalize_query_well_formed q Hwf), Hempty in Hres.
    injection Hres as <-. constructor.
  - rewrite search_vectors_nonempty in Hres by done. injection Hres as <-.
    apply Forall_forall. intros hit Hhit.
    apply first_query_hits_elem in Hhit as (row & _ & Hhit).
    apply hits_of_row_entry in Hhit as (v & Hentry & _).
    apply (list_elem_of_fmap_2 fst) in Hentry. simpl in Hentry.
    apply Hsame in Hentry as [crow Hcrow]. exists crow.
    unfold vector_to_resume. by rewrite Hcrow.
Qed.

Context `{!ScalarOrder F}.

#[local] Instance score_order_total : Total (@Faiss.score_desc F _).
Proof. intros a b. unfold Faiss.score_desc. destruct (s_leb_total b.1 a.1); auto. Qed.

#[local] Instance score_order_trans : Transitive (@Faiss.score_desc F _).
Proof. intros a b c Hab Hbc. unfold Faiss.score_desc in *. by eapply s_leb_trans. Qed.


End SearchMore.

Lemma D1_store_ids : index_ids D1_store = [0; 1]%Z.
Proof. vm_compute. reflexivity. Qed.


(** X18 on the store holding [D1] and [D2]. *)
Lemma search_hits_have_chunks_witness :
  match search_vectors (QList (basis 3)) 2 D12_store with
  | Ok res => Forall (λ hit, ∃ owned, chunks D12_store !! hit.2 = Some owned
                ∧ vector_to_resume hit.2 D12_store = chunk_resume_id owned) res
  | Raise _ => False
  end.
Proof.
  destruct (search_vectors (QList (basis 3)) 2 D12_store) as [res|e] eqn:Hres.
  - apply (search_hits_have_chunks (QList (basis 3)) 2 D12_store res D12_store_agreement);
      [reflexivity|exact Hres].
  - vm_compute in Hres. discriminate Hres.
Defined.

Lemma R1_store_eq :
  R1_store
  = mkDb (Faiss.Index VECTOR_DIM
            [(0%Z, normalize_row (1%R :: replicate (VECTOR_DIM - 1) 0%R))])
         (upsert_resume (doc "D1") ∅)
         (list_to_map (chunk_rows (doc "D1") 0 ["a"]) ∪ ∅) 1.
Proof.
  unfold R1_store, exec. rewrite insert_resume_Ok; [done|apply fresh_cursor|done|done|].
  constructor; [|constructor]. cbn [length]. by rewrite length_replicate.
Qed.


(** ** [search_by_metadata] *)

Section MetadataFilter.
Context {F : Type} `{!Scalar F}.
Context (like : string → string → bool)
        (json_dumps : list string → string)
        (lower : string → string).
Implicit Types (st : db F) (rid : string).

Lemma search_by_metadata_elem skills_ min_years max_years name_pattern st rid :
  rid ∈ search_by_metadata like json_dumps lower skills_ min_years max_years name_pattern st ↔
  ∃ row, resumes st !! rid = Some row
         ∧ forallb (λ clause, clause row)
             (where_clauses like json_dumps lower skills_ min_years max_years name_pattern) = true.
Proof.
  unfold search_by_metadata. rewrite list_elem_of_fmap. split.
  - intros ([rid' row] & -> & Hin). exists row.
    by apply elem_of_map_to_list, map_lookup_filter_Some in Hin.
  - intros (row & Hrow & Hpass). exists (rid, row). split; [done|].
    by apply elem_of_map_to_list, map_lookup_filter_Some.
Qed.

(** X19. With no filter at all every resume is returned; an empty skill
    list and an empty name pattern count as no filter. *)
Theorem search_by_metadata_no_filter skills_ name_pattern st :
  skills_ = None ∨ skills_ = Some [] →
  name_pattern = None ∨ name_pattern = Some "" →
  search_by_metadata like json_dumps lower skills_ None None name_pattern st = get_all_resume_ids st.
Proof.
  intros Hskills Hname. unfold search_by_metadata, get_all_resume_ids.
  assert (where_clauses like json_dumps lower skills_ None None name_pattern = []) as ->.
  { by destruct Hskills as [-> | ->], Hname as [-> | ->]. }
  by rewrite map_filter_id.
Qed.

Lemma where_clauses_split skills_ min_years max_years name_pattern :
  where_clauses like json_dumps lower skills_ min_years max_years name_pattern
  = where_clauses like json_dumps lower skills_ None None None ++ where_clauses like json_dumps lower None min_years None None
    ++ where_clauses like json_dumps lower None None max_years None ++ where_clauses like json_dumps lower None None None name_pattern.
Proof. unfold where_clauses. simpl. by rewrite !app_nil_r. Qed.

(** X20. The filters are conjunctive: a resume is returned exactly when
    each of the four filters, applied alone, returns it; no resume is
    returned twice. *)
Theorem search_by_metadata_conjunctive skills_ min_years max_years name_pattern st :
  (∀ rid, rid ∈ search_by_metadata like json_dumps lower skills_ min_years max_years name_pattern st ↔
     rid ∈ search_by_metadata like json_dumps lower skills_ None None None st
     ∧ rid ∈ search_by_metadata like json_dumps lower None min_years None None st
     ∧ rid ∈ search_by_metadata like json_dumps lower None None max_years None st
     ∧ rid ∈ search_by_metadata like json_dumps lower None None None name_pattern st)
  ∧ NoDup (search_by_metadata like json_dumps lower skills_ min_years max_years name_pattern st).
Proof.
  split; [|apply NoDup_fst_map_to_list].
  intros rid. rewrite !search_by_metadata_elem.
  rewrite (where_clauses_split skills_ min_years max_years name_pattern). split.
  - intros (row & Hrow & Hpass). rewrite !forallb_app, !andb_true_iff in Hpass.
    destruct Hpass as (? & ? & ? & ?). repeat split; by exists row.
  - intros ((row & Hrow & ?) & (row2 & Hrow2 & ?) & (row3 & Hrow3 & ?) & (row4 & Hrow4 & ?)).
    exists row. split; [done|].
    assert (row2 = row) as -> by congruence.
    assert (row3 = row) as -> by congruence.
    assert (row4 = row) as -> by congruence.
    rewrite !forallb_app, !andb_true_iff. done.
Qed.

(** X21. Every resume returned has its years of experience within the
    bounds given, whatever the other filters; with the lower bound above
    the upper one nothing is returned. *)
Theorem search_by_metadata_years skills_ min_years max_years name_pattern st :
  (∀ rid, rid ∈ search_by_metadata like json_dumps lower skills_ min_years max_years name_pattern st →
     ∃ row, resumes st !! rid = Some row
       ∧ (∀ y, min_years = Some y → (y ≤ row_years_experience row)%Z)
       ∧ (∀ y, max_years = Some y → (row_years_experience row ≤ y)%Z))
  ∧ (∀ lo hi, min_years = Some lo → max_years = Some hi → (hi < lo)%Z →
       search_by_metadata like json_dumps lower skills_ min_years max_years name_pattern st = []).
Proof.
  assert (∀ rid, rid ∈ search_by_metadata like json_dumps lower skills_ min_years max_years name_pattern st →
     ∃ row, resumes st !! rid = Some row
       ∧ (∀ y, min_years = Some y → (y ≤ row_years_experience row)%Z)
       ∧ (∀ y, max_years = Some y → (row_years_experience row ≤ y)%Z)) as Hbounds.
  { intros rid (row & Hrow & Hpass)%search_by_metadata_elem. exists row.
    rewrite where_clauses_split, !forallb_app, !andb_true_iff in Hpass.
    destruct Hpass as (_ & Hmin & Hmax & _). split; [done|]. split.
    - intros y ->. simpl in Hmin. rewrite andb_true_r in Hmin. by apply Z.leb_le.
    - intros y ->. simpl in Hmax. rewrite andb_true_r in Hmax. by apply Z.leb_le. }
  split; [done|].
  intros lo hi Hlo Hhi Hlt. apply elem_of_nil_inv. intros rid Hin.
  destruct (Hbounds rid Hin) as (row & _ & Hmin & Hmax).
  specialize (Hmin lo Hlo). specialize (Hmax hi Hhi). lia.
Qed.

End MetadataFilter.

(** X19 on the store holding [D1] and [D2], with stand-ins for the three
    text operations (none is consulted). *)
Lemma search_by_metadata_no_filter_witness :
  search_by_metadata (λ _ _, true) (λ _, "") (λ s, s) (Some []) None None (Some "") D12_store
  = get_all_resume_ids D12_store.
Proof. apply search_by_metadata_no_filter; by right. Defined.

(** X21 on the same store: at least 5 and at most 2 years. *)
Lemma search_by_metadata_years_witness :
  search_by_metadata (λ _ _, true) (λ _, "") (λ s, s) None (Some 5%Z) (Some 2%Z) None D12_store
  = [].
Proof.
  apply (proj2 (search_by_metadata_years (λ _ _, true) (λ _, "") (λ s, s)
                  None (Some 5%Z) (Some 2%Z) None D12_store) 5%Z 2%Z eq_refl eq_refl).
  lia.
Defined.

(** ** [_l2_normalize]: shapes and errors *)

Section NormalizeShape.
Context {F : Type} `{!Scalar F}.


End NormalizeShape.

Section NormBelowOne.
Open Scope R_scope.


End NormBelowOne.

(** ** [_next_free_vector_id] and the shape checks of [search_vectors] *)

Section CursorAndShapes.
Context {F : Type} `{!Scalar F}.
Implicit Types (st : db F) (q : query F).

(** X24. [_next_free_vector_id] is 0 on an empty table and otherwise one
    more than the largest [vector_id] present: above every identifier of
    the table, with its predecessor in the table. *)
Theorem next_free_vector_id_spec (tbl : gmap Z chunk_row) :
  _next_free_vector_id (∅ : gmap Z chunk_row) = 0%Z
  ∧ (∀ k, is_Some (tbl !! k) → (k < _next_free_vector_id tbl)%Z)
  ∧ (tbl ≠ ∅ → is_Some (tbl !! (_next_free_vector_id tbl - 1)%Z)).
Proof.
  split; [done|]. unfold _next_free_vector_id.
  assert (∀ k, k ∈ (map_to_list tbl).*1 ↔ is_Some (tbl !! k)) as Hkeys.
  { intros k. rewrite list_elem_of_fmap. split.
    - intros ([k' row] & -> & Hin%elem_of_map_to_list). eauto.
    - intros [row Hrow]. exists (k, row). by rewrite elem_of_map_to_list. }
  split.
  - intros k Hk%Hkeys. destruct (sql_max_ge _ _ Hk) as (m & -> & Hm). simpl. lia.
  - intros Hne.
    destruct (sql_max (map_to_list tbl).*1) as [m|] eqn:Hmax.
    + simpl. replace (m + 1 - 1)%Z with m by lia. by apply Hkeys, sql_max_in.
    + destruct (map_to_list tbl) as [|kv l] eqn:Hlist; [|done].
      by apply map_to_list_empty_iff in Hlist.
Qed.

(** X25. Shape errors in [search_vectors]: a batch whose rows differ in
    length raises [ValueError], on an empty index too; a well-formed query
    whose dimension is not that of the index gets the empty list. *)
Theorem search_shape_errors (top_k : Z) st :
  (∀ r rs, ¬ Forall (λ r', length r' = length r) rs →
     search_vectors (QBatch (r :: rs)) top_k st = Raise ValueError)
  ∧ (∀ q, well_formed q = true → query_cols q ≠ Faiss.d (index st) →
     search_vectors q top_k st = Ok []).
Proof.
  split.
  - intros r rs Hragged. unfold search_vectors. simpl normalize_query.
    rewrite l2_normalize_ragged; [done|].
    destruct (forallb (λ r', length r' =? length r) rs) eqn:Hrect; [|done].
    exfalso. apply Hragged, Forall_forall. intros r' Hr'%list_elem_of_In.
    rewrite forallb_forall in Hrect. by apply Nat.eqb_eq, Hrect.
  - intros q Hwf Hdim. unfold search_vectors.
    rewrite (normalize_query_well_formed q Hwf). simpl.
    destruct (Faiss.ntotal (index st) =? 0); [done|].
    unfold Faiss.search. by apply Nat.eqb_neq in Hdim as ->.
Qed.

End CursorAndShapes.

(** X24 on the table of the store holding [D1] and [D2]. *)
Lemma next_free_vector_id_spec_witness :
  is_Some (chunks D12_store !! (_next_free_vector_id (chunks D12_store) - 1)%Z).
Proof.
  apply (proj2 (proj2 (next_free_vector_id_spec (chunks D12_store)))).
  intros Hempty.
  assert (chunks D12_store !! 0%Z = Some (mkChunk "D1" "a")) as Hrow
    by (vm_compute; reflexivity).
  by rewrite Hempty, lookup_empty in Hrow.
Defined.

(** X25 on the store holding [D1]: a ragged batch, and a query of
    dimension 1. *)
Lemma search_shape_errors_witness :
  search_vectors (QBatch [[Binary32.one]; []]) 3 D1_store = Raise ValueError
  ∧ search_vectors (QList [Binary32.one]) 3 D1_store = Ok [].
Proof.
  destruct (search_shape_errors 3 D1_store) as [Hragged Hdim]. split.
  - apply Hragged. intros Hall. apply Forall_cons in Hall as [Hlen _]. discriminate Hlen.
  - apply Hdim; [reflexivity|]. vm_compute. discriminate.
Defined.
